(** * Orb: the audio pipeline of the [gdm-live-audio] component

    A shallow embedding of the audio path of the Orb application
    (component [GdmLiveAudio] of [index.tsx], helpers of [utils.ts]) and
    the properties its specification states about it.

    - [Utils]     : the PCM codec and the base64 transport encoding;
    - [Component] : the fields of [GdmLiveAudio] and its methods: the
                    [onmessage] handler, which schedules response audio
                    against [nextStartTime] and the set [sources], and
                    [startRecording], [stopRecording], [onaudioprocess]
                    and [reset] of the capture chain;
    - [UtilsFacts], [ComponentFacts] : what is proved of them.

    Times (seconds of the output clock, buffer durations) and audio samples
    are exact rationals: the rounding of IEEE doubles is not modelled. *)

From Stdlib Require Import ZArith NArith QArith Qround Qminmax Lqa Lia.
From Stdlib Require Import Strings.Ascii Strings.String Strings.Byte.
From stdpp Require Import base list gmap.

Set Default Proof Using "Type".

(* ===================================================================== *)
(** ** Utils: PCM codec and base64 *)
(* ===================================================================== *)

Module Utils.

Local Open Scope N_scope.

(** A [Uint8Array] is a list of bytes; JS text is a [string]. *)
Definition bytes := list byte.

(** The character standing for the sextet [i] (RFC 4648, table 1). *)
Definition b64char (i : N) : ascii :=
  if i <? 26 then ascii_of_N (i + 65)          (* A..Z *)
  else if i <? 52 then ascii_of_N (i + 71)     (* a..z *)
  else if i <? 62 then ascii_of_N (i - 4)      (* 0..9 *)
  else if i =? 62 then "+"%char
  else "/"%char.

(** The sextet a character stands for; [None] outside the alphabet. *)
Definition b64index (c : ascii) : option N :=
  let n := N_of_ascii c in
  if (65 <=? n) && (n <=? 90) then Some (n - 65)
  else if (97 <=? n) && (n <=? 122) then Some (n - 71)
  else if (48 <=? n) && (n <=? 57) then Some (n + 4)
  else if n =? 43 then Some 62
  else if n =? 47 then Some 63
  else None.

Definition pad : ascii := "="%char.

Definition is_pad (c : ascii) : bool := (N_of_ascii c =? 61).

(** The byte with value [n mod 256]. *)
Definition byte_of_N (n : N) : byte :=
  match Byte.of_N (n mod 256) with
  | Some b => b
  | None => x00
  end.

(** Modelled from the spec: [encode] of utils.ts ([bytesToText]), absent
    from the sources at hand, as the standard base64 encoding with padding:
    three bytes give four characters, a trailing group of one or two bytes
    is padded with [=]. *)
Fixpoint encode (bs : bytes) : string :=
  match bs with
  | [] => EmptyString
  | [a] =>
      let a := Byte.to_N a in
      String (b64char (a / 4))
        (String (b64char ((a mod 4) * 16))
           (String pad (String pad EmptyString)))
  | [a; b] =>
      let a := Byte.to_N a in
      let b := Byte.to_N b in
      String (b64char (a / 4))
        (String (b64char ((a mod 4) * 16 + b / 16))
           (String (b64char ((b mod 16) * 4))
              (String pad EmptyString)))
  | a :: b :: c :: rest =>
      let a := Byte.to_N a in
      let b := Byte.to_N b in
      let c := Byte.to_N c in
      String (b64char (a / 4))
        (String (b64char ((a mod 4) * 16 + b / 16))
           (String (b64char ((b mod 16) * 4 + c / 64))
              (String (b64char (c mod 64)) (encode rest))))
  end.

Definition is_empty (s : string) : bool :=
  match s with EmptyString => true | _ => false end.

(** Modelled from the spec: [decode] of utils.ts ([textToBytes]), absent
    from the sources at hand, as the inverse of [encode]: groups of four
    characters, padding only in the last group; [None] is the spec's
    [DecodeError] on malformed text. *)
Fixpoint decode (s : string) : option bytes :=
  match s with
  | EmptyString => Some []
  | String c1 (String c2 (String c3 (String c4 rest))) =>
      match b64index c1, b64index c2 with
      | Some s1, Some s2 =>
          let b1 := byte_of_N (s1 * 4 + s2 / 16) in
          if is_pad c3 then
            if is_pad c4 && is_empty rest then Some [b1] else None
          else
            match b64index c3 with
            | Some s3 =>
                let b2 := byte_of_N ((s2 mod 16) * 16 + s3 / 4) in
                if is_pad c4 then
                  if is_empty rest then Some [b1; b2] else None
                else
                  match b64index c4 with
                  | Some s4 =>
                      let b3 := byte_of_N ((s3 mod 4) * 64 + s4) in
                      match decode rest with
                      | Some tl => Some (b1 :: b2 :: b3 :: tl)
                      | None => None
                      end
                  | None => None
                  end
            | None => None
            end
      | _, _ => None
      end
  | _ => None
  end.

(** The payload handed to [sendRealtimeInput]. *)
Record Blob := { data : string; mimeType : string }.

(** Nearest integer of a rational, halves upwards. *)
Definition roundNearest (x : Q) : Z := Qfloor (x + (1 # 2)).

(** Storing an integer in an [Int16Array] element keeps its low 16 bits,
    read as a two's complement number. *)
Definition toInt16 (z : Z) : Z := ((z + 32768) mod 65536 - 32768)%Z.

(** The two bytes of a 16-bit word, low byte first. *)
Definition int16_bytes (w : Z) : bytes :=
  let u := Z.to_N (w mod 65536) in
  [byte_of_N (u mod 256); byte_of_N (u / 256)].

(** Modelled from the spec: the sample conversion of [createBlob]
    ([floatToPcmChunk]), absent from the sources at hand: each sample is
    scaled by 32768 and rounded to the nearest integer, no clamp is
    performed, and the result is packed as a little-endian signed 16-bit
    word. *)
Definition floatToPcm (samples : list Q) : bytes :=
  concat
    (map (fun x => int16_bytes (toInt16 (roundNearest (x * 32768)))) samples).

(** Modelled from the spec: [createBlob] of utils.ts, absent from the
    sources at hand; the outbound transport payload of section 6. *)
Definition createBlob (samples : list Q) : Blob :=
  {| data := encode (floatToPcm samples);
     mimeType := "audio/pcm;rate=16000" |}.

(** [new Int16Array(buffer)]: the bytes read as signed 16-bit little-endian
    words; a buffer of odd length is refused ([None]). *)
Fixpoint int16_words (bs : bytes) : option (list Z) :=
  match bs with
  | [] => Some []
  | lo :: hi :: rest =>
      let u := (Z.of_N (Byte.to_N lo) + 256 * Z.of_N (Byte.to_N hi))%Z in
      let w := (if u <? 32768 then u else u - 65536)%Z in
      match int16_words rest with
      | Some ws => Some (w :: ws)
      | None => None
      end
  | [_] => None
  end.

(** What the test of [createBlob] reads back from a blob:
    [new Int16Array(decode(blob.data).buffer)]. *)
Definition readBack (blob : Blob) : option (list Z) :=
  match decode (data blob) with
  | Some bs => int16_words bs
  | None => None
  end.

End Utils.

(* ===================================================================== *)
(** ** The component [GdmLiveAudio] *)
(* ===================================================================== *)

Module Component.

Local Open Scope Q_scope.

(** Objects of the browser are known by their identity. *)
Definition handle := nat.   (* an [AudioBufferSourceNode] of the output *)
Definition node := nat.     (* a node of the capture graph *)
Definition stream := nat.   (* a [MediaStream] *)
Definition promise := nat.  (* a [Promise<Session>] *)

(** The calls the component makes on its collaborators, in order. A send
    is registered on the session promise: the continuation
    [session.sendRealtimeInput({media: createBlob(pcm)})] runs when the
    promise is fulfilled. *)
Inductive Call : Type :=
| Connect (p : promise)                  (* client.live.connect(...) *)
| ThenSend (p : promise) (pcm : list Q)  (* sessionPromise.then(send) *)
| ThenClose (p : promise)                (* sessionPromise.then(close) *)
| Start (h : handle) (startAt : Q)       (* source.start(startAt) *)
| Stop (h : handle)                      (* source.stop() *)
| Disconnect (n : node)                  (* n.disconnect() *)
| Acquired (m : stream)                  (* getUserMedia resolved with m *)
| TrackStop (m : stream).                (* every track of m: track.stop() *)

(** The fields of the class that the audio path reads or writes, [null] and
    [undefined] both being [None] (the code only tests them for
    truthiness), followed by the log of calls and the number of objects
    created so far. The transcript fields are left out: the code that
    handles transcripts reads and writes nothing else. *)
Record GdmLiveAudio : Type := {
  isRecording : bool;
  status : string;
  sessionPromise : option promise;
  nextStartTime : Q;
  mediaStream : option stream;
  sourceNode : option node;
  scriptProcessorNode : option node;
  sources : gset handle;
  calls : list Call;
  objects : nat
}.

(** [inputAudioContext] is built by its field initialiser and never
    assigned: it is always truthy. *)
Definition inputAudioContext : bool := true.

(** Assignments to a field: the state is taken apart and rebuilt. *)
Definition set_isRecording (v : bool) (s : GdmLiveAudio) : GdmLiveAudio :=
  let '(Build_GdmLiveAudio rec st sp t ms sn pn srcs cs k) := s in
  {| isRecording := v; status := st;
     sessionPromise := sp; nextStartTime := t;
     mediaStream := ms; sourceNode := sn;
     scriptProcessorNode := pn; sources := srcs;
     calls := cs; objects := k |}.

Definition set_status (v : string) (s : GdmLiveAudio) : GdmLiveAudio :=
  let '(Build_GdmLiveAudio rec st sp t ms sn pn srcs cs k) := s in
  {| isRecording := rec; status := v;
     sessionPromise := sp; nextStartTime := t;
     mediaStream := ms; sourceNode := sn;
     scriptProcessorNode := pn; sources := srcs;
     calls := cs; objects := k |}.

Definition set_sessionPromise (v : option promise) (s : GdmLiveAudio)
  : GdmLiveAudio :=
  let '(Build_GdmLiveAudio rec st sp t ms sn pn srcs cs k) := s in
  {| isRecording := rec; status := st;
     sessionPromise := v; nextStartTime := t;
     mediaStream := ms; sourceNode := sn;
     scriptProcessorNode := pn; sources := srcs;
     calls := cs; objects := k |}.

Definition set_nextStartTime (v : Q) (s : GdmLiveAudio) : GdmLiveAudio :=
  let '(Build_GdmLiveAudio rec st sp t ms sn pn srcs cs k) := s in
  {| isRecording := rec; status := st;
     sessionPromise := sp; nextStartTime := v;
     mediaStream := ms; sourceNode := sn;
     scriptProcessorNode := pn; sources := srcs;
     calls := cs; objects := k |}.

Definition set_mediaStream (v : option stream) (s : GdmLiveAudio)
  : GdmLiveAudio :=
  let '(Build_GdmLiveAudio rec st sp t ms sn pn srcs cs k) := s in
  {| isRecording := rec; status := st;
     sessionPromise := sp; nextStartTime := t;
     mediaStream := v; sourceNode := sn;
     scriptProcessorNode := pn; sources := srcs;
     calls := cs; objects := k |}.

Definition set_sourceNode (v : option node) (s : GdmLiveAudio) : GdmLiveAudio :=
  let '(Build_GdmLiveAudio rec st sp t ms sn pn srcs cs k) := s in
  {| isRecording := rec; status := st;
     sessionPromise := sp; nextStartTime := t;
     mediaStream := ms; sourceNode := v;
     scriptProcessorNode := pn; sources := srcs;
     calls := cs; objects := k |}.

Definition set_scriptProcessorNode (v : option node) (s : GdmLiveAudio)
  : GdmLiveAudio :=
  let '(Build_GdmLiveAudio rec st sp t ms sn pn srcs cs k) := s in
  {| isRecording := rec; status := st;
     sessionPromise := sp; nextStartTime := t;
     mediaStream := ms; sourceNode := sn;
     scriptProcessorNode := v; sources := srcs;
     calls := cs; objects := k |}.

Definition set_sources (v : gset handle) (s : GdmLiveAudio) : GdmLiveAudio :=
  let '(Build_GdmLiveAudio rec st sp t ms sn pn srcs cs k) := s in
  {| isRecording := rec; status := st;
     sessionPromise := sp; nextStartTime := t;
     mediaStream := ms; sourceNode := sn;
     scriptProcessorNode := pn; sources := v;
     calls := cs; objects := k |}.

(** Appends a call to the log. *)
Definition call (c : Call) (s : GdmLiveAudio) : GdmLiveAudio :=
  let '(Build_GdmLiveAudio rec st sp t ms sn pn srcs cs k) := s in
  {| isRecording := rec; status := st;
     sessionPromise := sp; nextStartTime := t;
     mediaStream := ms; sourceNode := sn;
     scriptProcessorNode := pn; sources := srcs;
     calls := cs ++ [c]; objects := k |}.

(** Creates an object: its identity is the count of objects so far. *)
Definition create (s : GdmLiveAudio) : nat * GdmLiveAudio :=
  let '(Build_GdmLiveAudio rec st sp t ms sn pn srcs cs k) := s in
  (k,
  {| isRecording := rec; status := st;
     sessionPromise := sp; nextStartTime := t;
     mediaStream := ms; sourceNode := sn;
     scriptProcessorNode := pn; sources := srcs;
     calls := cs; objects := S k |}).

(** *** Methods as state transformers that may throw *)

(** A method body runs from a state to a state and either returns a value
    or throws the message of an error. *)
Inductive result (A : Type) : Type :=
| Returns (a : A)
| Throws (message : string).
Arguments Returns {A} a.
Arguments Throws {A} message.

Definition M (A : Type) : Type := GdmLiveAudio -> result A * GdmLiveAudio.

Definition ret {A} (a : A) : M A := fun s => (Returns a, s).

Definition throw {A} (message : string) : M A := fun s => (Throws message, s).

Definition bind {A B} (m : M A) (k : A -> M B) : M B :=
  fun s =>
    match m s with
    | (Returns a, s') => k a s'
    | (Throws e, s') => (Throws e, s')
    end.

(** [try { body } catch (err) { handler err }] *)
Definition try_catch {A} (body : M A) (handler : string -> M A) : M A :=
  fun s =>
    match body s with
    | (Returns a, s') => (Returns a, s')
    | (Throws e, s') => handler e s'
    end.

Definition gets {A} (f : GdmLiveAudio -> A) : M A :=
  fun s => (Returns (f s), s).

Definition modify (f : GdmLiveAudio -> GdmLiveAudio) : M unit :=
  fun s => (Returns tt, f s).

Definition fresh : M nat := fun s => (Returns (fst (create s)), snd (create s)).

Declare Scope method_scope.
Delimit Scope method_scope with method.
Notation "x <- m ;; k" := (bind m (fun x => k))
  (at level 100, m at next level, right associativity) : method_scope.
Notation "m ;; k" := (bind m (fun _ => k))
  (at level 100, right associativity) : method_scope.
Local Open Scope method_scope.

(** [for (const x of xs) body x] *)
Fixpoint for_of {A} (xs : list A) (body : A -> M unit) : M unit :=
  match xs with
  | [] => ret tt
  | x :: rest => body x ;; for_of rest body
  end.

Definition when (b : bool) (m : M unit) : M unit := if b then m else ret tt.

Definition truthy {A} (o : option A) : bool :=
  match o with Some _ => true | None => false end.

Definition exec {A} (m : M A) (s : GdmLiveAudio) : GdmLiveAudio := snd (m s).
Definition outcome {A} (m : M A) (s : GdmLiveAudio) : result A := fst (m s).

(** *** Construction *)

(** The state the field initialisers leave. *)
Definition fields : GdmLiveAudio :=
  {| isRecording := false; status := ""; sessionPromise := None;
     nextStartTime := 0; mediaStream := None; sourceNode := None;
     scriptProcessorNode := None; sources := ∅; calls := []; objects := 0 |}.

Definition updateStatus (msg : string) : M unit := modify (set_status msg).

(** [initAudio], with [outputAudioContext.currentTime] as [currentTime]. *)
Definition initAudio (currentTime : Q) : M unit :=
  modify (set_nextStartTime currentTime).

(** The constructor, as far as the fields above go. *)
Definition constructor (currentTime : Q) : GdmLiveAudio :=
  exec (initAudio currentTime) fields.

(** [initSession]: [client.live.connect] returns a new promise, kept in
    [sessionPromise]. The callbacks it installs are [onmessage] below. *)
Definition initSession : M promise :=
  p <- fresh ;;
  modify (call (Connect p)) ;;
  modify (set_sessionPromise (Some p)) ;;
  ret p.

(** *** Playback: the [onmessage] callback *)

(** What the handler reads of a [LiveServerMessage]: the [data] of
    [serverContent.modelTurn.parts[0].inlineData] when there is one, and
    [serverContent.interrupted]. *)
Record LiveServerMessage : Type := {
  audio : option string;
  interrupted : bool
}.

Section OnMessage.

(** [decodeAudioData(decode(data), outputAudioContext, 24000, 1)] of
    utils.ts, of which the handler uses the [duration] of the buffer;
    [None] when the decoding throws. *)
Variable decodeAudioData : string -> option Q.

Definition decodeBuffer (data : string) : M Q :=
  match decodeAudioData data with
  | Some duration => ret duration
  | None => throw "DecodeError"
  end.

(** The listener of [ended] that the handler registers on a source. *)
Definition ended (source : handle) : M unit :=
  modify (fun s => set_sources (sources s ∖ {[source]}) s).

(** The audio branch: [if (audio) { ... }]. *)
Definition schedule (currentTime : Q) (data : string) : M unit :=
  modify (fun s => set_nextStartTime (Qmax (nextStartTime s) currentTime) s) ;;
  duration <- decodeBuffer data ;;
  source <- fresh ;;
  startAt <- gets nextStartTime ;;
  modify (call (Start source startAt)) ;;
  modify (fun s => set_nextStartTime (nextStartTime s + duration) s) ;;
  modify (fun s => set_sources ({[source]} ∪ sources s) s).

(** The interrupted branch: [if (interrupted) { ... }]. Deleting the
    element under the iterator removes no element still to be visited, so
    the loop visits the members the set had when it began; it visits them
    in the order of [elements], where the code follows the order of
    insertion. *)
Definition interrupt : M unit :=
  members <- gets (fun s => elements (sources s)) ;;
  for_of members (fun source =>
    modify (call (Stop source)) ;;
    modify (fun s => set_sources (sources s ∖ {[source]}) s)) ;;
  modify (set_nextStartTime 0).

(** [onmessage], run when [outputAudioContext.currentTime] is
    [currentTime]. The continuation of the [await] is taken to run before
    any other callback of the component. *)
Definition onmessage (currentTime : Q) (message : LiveServerMessage)
  : M unit :=
  match audio message with
  | Some data => schedule currentTime data
  | None => ret tt
  end ;;
  when (interrupted message) interrupt.

(** A message that carries one audio chunk and nothing else, and one that
    only signals an interruption. *)
Definition chunk (data : string) : LiveServerMessage :=
  {| audio := Some data; interrupted := false |}.

Definition bargeIn : LiveServerMessage :=
  {| audio := None; interrupted := true |}.

(** The state after a sequence of arrivals, each with its clock time. An
    arrival whose handler throws leaves the state the handler had reached. *)
Fixpoint arrivals (ms : list (Q * LiveServerMessage)) (s : GdmLiveAudio)
  : GdmLiveAudio :=
  match ms with
  | [] => s
  | (currentTime, message) :: rest =>
      arrivals rest (exec (onmessage currentTime message) s)
  end.

(** The value of [nextStartTime] after each arrival of a sequence. *)
Fixpoint cursors (ms : list (Q * LiveServerMessage)) (s : GdmLiveAudio)
  : list Q :=
  match ms with
  | [] => []
  | (currentTime, message) :: rest =>
      let s' := exec (onmessage currentTime message) s in
      nextStartTime s' :: cursors rest s'
  end.

End OnMessage.

(** The start times of buffers of the given durations played back to back
    from [t0]: [t0], [t0 + d1], [t0 + d1 + d2], ... *)
Fixpoint backToBack (t0 : Q) (durations : list Q) : list Q :=
  match durations with
  | [] => []
  | d :: rest => t0 :: backToBack (t0 + d) rest
  end.

(** The output clock does not overtake the cursor: each chunk, given with
    the clock time of its arrival and its duration, arrives no later than
    the end of the buffers before it. *)
Fixpoint notOvertaken (cursor : Q) (chunks : list (Q * Q)) : Prop :=
  match chunks with
  | [] => True
  | (currentTime, d) :: rest =>
      currentTime <= cursor /\ notOvertaken (cursor + d) rest
  end.

(** The times of the [source.start] calls of a log, in order. *)
Definition starts (cs : list Call) : list Q :=
  omap (fun c => match c with Start _ t => Some t | _ => None end) cs.

(** *** Capture *)

(** [stopRecording]. *)
Definition stopRecording : M unit :=
  recording <- gets isRecording ;;
  held <- gets mediaStream ;;
  if negb recording && negb (truthy held) && negb inputAudioContext
  then ret tt
  else
    updateStatus "Stopping recording..." ;;
    modify (set_isRecording false) ;;
    processor <- gets scriptProcessorNode ;;
    source <- gets sourceNode ;;
    match processor, source with
    | Some p, Some n =>
        when inputAudioContext
          (modify (call (Disconnect p)) ;; modify (call (Disconnect n)))
    | _, _ => ret tt
    end ;;
    modify (set_scriptProcessorNode None) ;;
    modify (set_sourceNode None) ;;
    held <- gets mediaStream ;;
    match held with
    | Some m => modify (call (TrackStop m)) ;; modify (set_mediaStream None)
    | None => ret tt
    end ;;
    updateStatus "Recording stopped. Click Start to begin again.".

(** The calls of the [try] block of [startRecording] that may throw. *)
Inductive Step : Type :=
| GetUserMedia            (* await navigator.mediaDevices.getUserMedia *)
| CreateMediaStreamSource (* inputAudioContext.createMediaStreamSource *)
| ConnectInput            (* sourceNode.connect(inputNode) *)
| CreateScriptProcessor   (* inputAudioContext.createScriptProcessor *)
| ConnectProcessor        (* sourceNode.connect(scriptProcessorNode) *)
| ConnectDestination.     (* scriptProcessorNode.connect(destination) *)

Definition Step_eqb (a b : Step) : bool :=
  match a, b with
  | GetUserMedia, GetUserMedia
  | CreateMediaStreamSource, CreateMediaStreamSource
  | ConnectInput, ConnectInput
  | CreateScriptProcessor, CreateScriptProcessor
  | ConnectProcessor, ConnectProcessor
  | ConnectDestination, ConnectDestination => true
  | _, _ => false
  end.

(** How the browser answers one run of [startRecording]: the first call
    that throws, with the message of its error, or none. *)
Definition Browser : Type := option (Step * string).

Definition attempt (browser : Browser) (step : Step) : M unit :=
  match browser with
  | Some (failing, message) =>
      if Step_eqb step failing then throw message else ret tt
  | None => ret tt
  end.

(** [startRecording] when [getUserMedia] settles before anything else
    happens: the code before the [await] and its continuation as one step.
    The buttons stay enabled during the [await], so other handlers can run
    in between; [Page.startRecordingBegin] and [Page.startRecordingResume]
    are the two halves taken apart, and [Page.run] has an event for each.
    The calls that change no field and are not caught
    ([inputAudioContext.resume], [console.error]) are left out. *)
Definition startRecording (browser : Browser) : M unit :=
  recording <- gets isRecording ;;
  if recording then ret tt
  else
    session <- gets sessionPromise ;;
    (if truthy session then ret tt else (initSession ;; ret tt)) ;;
    updateStatus "Requesting microphone access..." ;;
    try_catch
      (attempt browser GetUserMedia ;;
       m <- fresh ;;
       modify (call (Acquired m)) ;;
       modify (set_mediaStream (Some m)) ;;
       updateStatus "Microphone access granted. Starting capture..." ;;
       attempt browser CreateMediaStreamSource ;;
       n <- fresh ;;
       modify (set_sourceNode (Some n)) ;;
       attempt browser ConnectInput ;;
       attempt browser CreateScriptProcessor ;;
       p <- fresh ;;
       modify (set_scriptProcessorNode (Some p)) ;;
       attempt browser ConnectProcessor ;;
       attempt browser ConnectDestination ;;
       modify (set_isRecording true) ;;
       updateStatus "ðŸ”´ Recording...")
      (fun message =>
         updateStatus ("Error: " ++ message) ;;
         stopRecording).

(** The [onaudioprocess] callback installed by [startRecording], for a
    block whose channel 0 holds [pcmData]. *)
Definition onaudioprocess (pcmData : list Q) : M unit :=
  recording <- gets isRecording ;;
  if negb recording then ret tt
  else
    session <- gets sessionPromise ;;
    match session with
    | Some p => modify (call (ThenSend p pcmData))
    | None => throw "TypeError"
    end.

(** [reset]. *)
Definition reset : M unit :=
  stopRecording ;;
  session <- gets sessionPromise ;;
  match session with
  | Some p =>
      modify (call (ThenClose p)) ;; modify (set_sessionPromise None)
  | None => ret tt
  end ;;
  updateStatus "Session cleared. Select language and start recording.".

(** The blocks whose send a log has registered, in order. *)
Definition sends (cs : list Call) : list (list Q) :=
  omap (fun c => match c with ThenSend _ pcm => Some pcm | _ => None end) cs.

(** The streams a log acquired, in order. *)
Definition acquired (cs : list Call) : list stream :=
  omap (fun c => match c with Acquired m => Some m | _ => None end) cs.

(** The capture state: the recording flag, the processor node, the source
    node and the media stream. *)
Definition capture (s : GdmLiveAudio)
  : bool * option node * option node * option stream :=
  (isRecording s, scriptProcessorNode s, sourceNode s, mediaStream s).

End Component.

(* ===================================================================== *)
(** ** The page: transcripts, status line, language, events *)
(* ===================================================================== *)

Module Page.

Import Component.
Local Open Scope method_scope.

(** A JS string whose content matters is the sequence of its UTF-16 code
    units. *)
Definition jsString : Type := list N.

Definition ofAscii (s : string) : jsString :=
  map N_of_ascii (list_ascii_of_string s).

(** The code units [String.prototype.trim] strips: [WhiteSpace] and
    [LineTerminator] of ECMAScript. *)
Definition isWhiteSpace (c : N) : bool :=
  (existsb (N.eqb c)
     [9; 10; 11; 12; 13; 32; 160; 5760; 8232; 8233; 8239; 8287; 12288;
      65279]
   || ((8192 <=? c) && (c <=? 8202)))%N.

Fixpoint trimStart (s : jsString) : jsString :=
  match s with
  | [] => []
  | c :: rest => if isWhiteSpace c then trimStart rest else s
  end.

Definition trimEnd (s : jsString) : jsString := rev (trimStart (rev s)).

Definition trim (s : jsString) : jsString := trimEnd (trimStart s).

(** A string is truthy when it is not empty. *)
Definition nonEmpty {A} (s : list A) : bool :=
  match s with [] => false | _ => true end.

(** An entry [{speaker, text}] of [transcriptionLog]. *)
Record LogEntry : Type := { speaker : string; text : jsString }.

(** The component with the fields [Component] leaves out, and the system
    instruction each session was connected with. *)
Record Page : Type := {
  component : GdmLiveAudio;
  error : string;
  selectedLanguage : string;
  transcriptionLog : list LogEntry;
  currentInputText : jsString;
  currentOutputText : jsString;
  instructions : gmap promise string
}.

Definition set_component (v : GdmLiveAudio) (p : Page) : Page :=
  let '(Build_Page c e l log i o ins) := p in
  {| component := v; error := e; selectedLanguage := l;
     transcriptionLog := log; currentInputText := i;
     currentOutputText := o; instructions := ins |}.

Definition set_error (v : string) (p : Page) : Page :=
  let '(Build_Page c e l log i o ins) := p in
  {| component := c; error := v; selectedLanguage := l;
     transcriptionLog := log; currentInputText := i;
     currentOutputText := o; instructions := ins |}.

Definition set_selectedLanguage (v : string) (p : Page) : Page :=
  let '(Build_Page c e l log i o ins) := p in
  {| component := c; error := e; selectedLanguage := v;
     transcriptionLog := log; currentInputText := i;
     currentOutputText := o; instructions := ins |}.

Definition set_transcriptionLog (v : list LogEntry) (p : Page) : Page :=
  let '(Build_Page c e l log i o ins) := p in
  {| component := c; error := e; selectedLanguage := l;
     transcriptionLog := v; currentInputText := i;
     currentOutputText := o; instructions := ins |}.

Definition set_currentInputText (v : jsString) (p : Page) : Page :=
  let '(Build_Page c e l log i o ins) := p in
  {| component := c; error := e; selectedLanguage := l;
     transcriptionLog := log; currentInputText := v;
     currentOutputText := o; instructions := ins |}.

Definition set_currentOutputText (v : jsString) (p : Page) : Page :=
  let '(Build_Page c e l log i o ins) := p in
  {| component := c; error := e; selectedLanguage := l;
     transcriptionLog := log; currentInputText := i;
     currentOutputText := v; instructions := ins |}.

Definition set_instructions (v : gmap promise string) (p : Page) : Page :=
  let '(Build_Page c e l log i o ins) := p in
  {| component := c; error := e; selectedLanguage := l;
     transcriptionLog := log; currentInputText := i;
     currentOutputText := o; instructions := v |}.

(** A method of [Component] run on the page. *)
Definition lift {A} (m : M A) (p : Page) : result A * Page :=
  let (r, s) := m (component p) in (r, set_component s p).

(** The page the constructor leaves. *)
Definition created (currentTime : Q) : Page :=
  {| component := constructor currentTime; error := "";
     selectedLanguage := "None"; transcriptionLog := [];
     currentInputText := []; currentOutputText := [];
     instructions := ∅ |}.

(** *** Transcripts *)

(** What the handler reads of [message.serverContent]: the audio and the
    interruption flag as in [Component], the two transcription objects,
    each with a [text] that may be missing, and [turnComplete]. *)
Record ServerContent : Type := {
  signal : LiveServerMessage;
  inputTranscription : option (option jsString);
  outputTranscription : option (option jsString);
  turnComplete : bool
}.

(** [accumulated += transcription.text]: a missing [text] is [undefined],
    which the concatenation turns into a string. *)
Definition appendText (accumulated : jsString) (t : option jsString)
  : jsString :=
  match t with
  | Some fragment => accumulated ++ fragment
  | None => accumulated ++ ofAscii "undefined"
  end.

(** The transcript part of [onmessage]: the three [if]s between the audio
    branch and the interrupted branch. *)
Definition transcribe (message : ServerContent) (p : Page) : Page :=
  let p :=
    match inputTranscription message with
    | Some t => set_currentInputText (appendText (currentInputText p) t) p
    | None => p
    end in
  let p :=
    match outputTranscription message with
    | Some t => set_currentOutputText (appendText (currentOutputText p) t) p
    | None => p
    end in
  if turnComplete message then
    let fullInput := trim (currentInputText p) in
    let fullOutput := trim (currentOutputText p) in
    let newLog := transcriptionLog p in
    let newLog :=
      if nonEmpty fullInput
      then newLog ++ [{| speaker := "You"; text := fullInput |}]
      else newLog in
    let newLog :=
      if nonEmpty fullOutput
      then newLog ++ [{| speaker := "Orb"; text := fullOutput |}]
      else newLog in
    set_currentOutputText []
      (set_currentInputText [] (set_transcriptionLog newLog p))
  else p.

Section Handlers.

Variable decodeAudioData : string -> option Q.

(** [onmessage] in full: the audio branch, the transcripts, the
    interrupted branch; an error thrown by the audio branch ends the
    handler. *)
Definition onmessage (currentTime : Q) (message : ServerContent) (p : Page)
  : result unit * Page :=
  match
    lift
      (match audio (signal message) with
       | Some data => schedule decodeAudioData currentTime data
       | None => ret tt
       end) p
  with
  | (Throws e, p1) => (Throws e, p1)
  | (Returns _, p1) =>
      lift (when (interrupted (signal message)) interrupt)
        (transcribe message p1)
  end.

End Handlers.

(** The callbacks [onopen], [onclose] and [onerror] of the session. *)
Definition onopen : Page -> result unit * Page :=
  lift (updateStatus "Connection opened").

Definition onclose : Page -> result unit * Page :=
  lift (updateStatus "Connection closed.").

Definition updateError (msg : string) (p : Page) : result unit * Page :=
  (Returns tt, set_error msg p).

Definition onerror (message : string) : Page -> result unit * Page :=
  updateError message.

(** The text [render] puts in the status line: [error || status]. *)
Definition statusLine (p : Page) : string :=
  if nonEmpty (list_ascii_of_string (error p)) then error p
  else status (component p).

(** *** Session and language *)

(** The instruction [initSession] builds from [selectedLanguage]. *)
Definition systemInstruction (language : string) : string :=
  if negb (String.eqb language "None")
  then ("You are a translator. Translate the user's words into "
          ++ language ++ " and repeat them out loud.")%string
  else "You are a parrot. Repeat the user's words exactly as you hear them.".

(** [startRecording] in full. [initSession] runs when the component is
    not recording and holds no session; the session it connects gets the
    instruction of the language selected then. *)
Definition startRecording (browser : Browser) (p : Page)
  : result unit * Page :=
  let s := component p in
  let p :=
    if negb (isRecording s) && negb (truthy (sessionPromise s))
    then set_instructions
           (<[objects s := systemInstruction (selectedLanguage p)]>
              (instructions p)) p
    else p in
  lift (Component.startRecording browser) p.

Definition stopRecording : Page -> result unit * Page :=
  lift Component.stopRecording.

(** [startRecording] up to [await getUserMedia]: the code that runs with
    the click. It returns [true] when it has called [getUserMedia] and
    awaits the answer. *)
Definition startRecordingBegin : M bool :=
  recording <- gets isRecording ;;
  if recording then ret false
  else
    session <- gets sessionPromise ;;
    (if truthy session then ret tt else (initSession ;; ret tt)) ;;
    updateStatus "Requesting microphone access..." ;;
    ret true.

(** The rest of [startRecording]: the code that runs when [getUserMedia]
    settles, with the answer of the browser. *)
Definition startRecordingResume (browser : Browser) : M unit :=
  try_catch
    (attempt browser GetUserMedia ;;
     m <- fresh ;;
     modify (call (Acquired m)) ;;
     modify (set_mediaStream (Some m)) ;;
     updateStatus "Microphone access granted. Starting capture..." ;;
     attempt browser CreateMediaStreamSource ;;
     n <- fresh ;;
     modify (set_sourceNode (Some n)) ;;
     attempt browser ConnectInput ;;
     attempt browser CreateScriptProcessor ;;
     q <- fresh ;;
     modify (set_scriptProcessorNode (Some q)) ;;
     attempt browser ConnectProcessor ;;
     attempt browser ConnectDestination ;;
     modify (set_isRecording true) ;;
     updateStatus "ðŸ”´ Recording...")
    (fun message =>
       updateStatus ("Error: " ++ message) ;;
       Component.stopRecording).

(** The click on the start button alone, on the page: [initSession], when
    it runs, connects with the instruction of the language selected. *)
Definition startClicked (p : Page) : result bool * Page :=
  let s := component p in
  let p :=
    if negb (isRecording s) && negb (truthy (sessionPromise s))
    then set_instructions
           (<[objects s := systemInstruction (selectedLanguage p)]>
              (instructions p)) p
    else p in
  lift startRecordingBegin p.

Definition microphoneAnswered (browser : Browser)
  : Page -> result unit * Page :=
  lift (startRecordingResume browser).

(** [reset] in full. *)
Definition reset (p : Page) : result unit * Page :=
  match
    lift
      (Component.stopRecording ;;
       session <- gets sessionPromise ;;
       match session with
       | Some q =>
           modify (call (ThenClose q)) ;; modify (set_sessionPromise None)
       | None => ret tt
       end) p
  with
  | (Throws e, p1) => (Throws e, p1)
  | (Returns _, p1) =>
      lift
        (updateStatus "Session cleared. Select language and start recording.")
        (set_currentOutputText []
           (set_currentInputText [] (set_transcriptionLog [] p1)))
  end.

(** [handleLanguageChange], with the value of the select. *)
Definition handleLanguageChange (value : string) (p : Page)
  : result unit * Page :=
  reset (set_selectedLanguage value p).

(** *** Events *)

(** What can happen to the page: the three buttons and the select, a
    message of the session, a block of the script processor, the end of a
    source, and the session callbacks. Each event is a stretch of code that
    runs to its end before the next. [startRecording] is one event,
    [ClickStart], when [getUserMedia] settles before anything else
    happens, and otherwise two, [StartClicked] and [MicrophoneAnswered],
    with other events in between: the buttons and the select stay enabled
    while [isRecording] is false. The model lets an answer come at any
    time, so that every order the browser can produce is among the
    runs. *)
Inductive Event : Type :=
| ClickStart (browser : Browser)
| ClickStop
| ClickReset
| LanguageChange (value : string)
| Message (currentTime : Q) (message : ServerContent)
| AudioProcess (pcmData : list Q)
| SourceEnded (source : handle)
| SessionOpen
| SessionClose
| SessionError (message : string)
| StartClicked
| MicrophoneAnswered (browser : Browser).

(** Forgets the value a handler returns. *)
Definition ignore {A} (h : Page -> result A * Page)
  : Page -> result unit * Page :=
  fun p =>
    match h p with
    | (Returns _, p') => (Returns tt, p')
    | (Throws e, p') => (Throws e, p')
    end.

Section Run.

Variable decodeAudioData : string -> option Q.

Definition handle_event (e : Event) : Page -> result unit * Page :=
  match e with
  | ClickStart browser => startRecording browser
  | ClickStop => stopRecording
  | ClickReset => reset
  | LanguageChange value => handleLanguageChange value
  | Message currentTime message =>
      onmessage decodeAudioData currentTime message
  | AudioProcess pcmData => lift (onaudioprocess pcmData)
  | SourceEnded source => lift (ended source)
  | SessionOpen => onopen
  | SessionClose => onclose
  | SessionError message => onerror message
  | StartClicked => ignore startClicked
  | MicrophoneAnswered browser => microphoneAnswered browser
  end.

(** The page after a sequence of events. An error a handler throws is the
    handler's end; the page stays as the handler left it. *)
Fixpoint run (es : list Event) (p : Page) : Page :=
  match es with
  | [] => p
  | e :: rest => run rest (snd (handle_event e p))
  end.

End Run.

End Page.

(* ===================================================================== *)
(** ** Notions used to state properties of runs *)
(* ===================================================================== *)

Module Notions.

Import Component.
Local Open Scope Q_scope.

(** Buffers given as (clock at arrival, start, duration) do not overlap and
    do not start in the past: each starts no earlier than the clock at its
    arrival and no earlier than [cursor], the end of the buffer before. *)
Fixpoint noOverlap (cursor : Q) (slots : list (Q * Q * Q)) : Prop :=
  match slots with
  | [] => True
  | (currentTime, start, d) :: rest =>
      currentTime <= start /\ cursor <= start /\ noOverlap (start + d) rest
  end.

(** The sources a log starts, and those it stops, in order. *)
Definition started (cs : list Call) : list handle :=
  omap (fun c => match c with Start h _ => Some h | _ => None end) cs.

Definition stopped (cs : list Call) : list handle :=
  omap (fun c => match c with Stop h => Some h | _ => None end) cs.

(** The streams whose tracks a log stops, in order. *)
Definition released (cs : list Call) : list stream :=
  omap (fun c => match c with TrackStop m => Some m | _ => None end) cs.

(** The sessions a log asks to close, in order. *)
Definition closed (cs : list Call) : list promise :=
  omap (fun c => match c with ThenClose q => Some q | _ => None end) cs.

(** The calls of a log other than the starts and stops of sources. *)
Definition notPlayback (cs : list Call) : list Call :=
  omap (fun c => match c with Start _ _ | Stop _ => None | _ => Some c end)
    cs.

(** From [s] to [s'] playback is left alone: the cursor and the in-flight
    set are the same, and no source is started or stopped. *)
Definition sparesPlayback (s s' : GdmLiveAudio) : Prop :=
  sources s' = sources s /\
  nextStartTime s' = nextStartTime s /\
  started (calls s') = started (calls s) /\
  stopped (calls s') = stopped (calls s) /\
  (objects s <= objects s')%nat.

(** From [s] to [s'] the capture and the session are left alone: the
    capture state and the session promise are the same, no stream is
    acquired or released, no node disconnected, no send registered and no
    session connected or closed. *)
Definition sparesCapture (s s' : GdmLiveAudio) : Prop :=
  capture s' = capture s /\
  sessionPromise s' = sessionPromise s /\
  status s' = status s /\
  notPlayback (calls s') = notPlayback (calls s) /\
  (objects s <= objects s')%nat.

(** The in-flight set is sound: each of its sources has been created,
    started and not stopped, and no source is started or stopped before it
    is created. *)
Definition inFlightSound (s : GdmLiveAudio) : Prop :=
  (forall h, h ∈ sources s ->
     (h < objects s)%nat /\
     h ∈ started (calls s) /\
     h ∉ stopped (calls s)) /\
  (forall h, h ∈ started (calls s) ++ stopped (calls s) ->
     (h < objects s)%nat).

(** The capture is consistent: while recording, the stream, both nodes and
    the session are there; otherwise the stream and the nodes are
    cleared. *)
Definition captureConsistent (s : GdmLiveAudio) : Prop :=
  if isRecording s
  then truthy (mediaStream s) && truthy (sourceNode s)
       && truthy (scriptProcessorNode s) && truthy (sessionPromise s) = true
  else mediaStream s = None /\ sourceNode s = None /\
       scriptProcessorNode s = None.

(** No stream leaks: every stream acquired has had its tracks stopped,
    but for the one the component holds. *)
Definition noLeak (s : GdmLiveAudio) : Prop :=
  forall m, m ∈ acquired (calls s) ->
    m ∈ released (calls s) \/ mediaStream s = Some m.

(** The transcript state of a page. *)
Definition transcripts (p : Page.Page)
  : list Page.LogEntry * Page.jsString * Page.jsString :=
  (Page.transcriptionLog p, Page.currentInputText p,
   Page.currentOutputText p).

(** The text a transcription object adds to its accumulator. *)
Definition fragment (t : option (option Page.jsString)) : Page.jsString :=
  match t with
  | Some t => Page.appendText [] t
  | None => []
  end.

(** An entry of the log is tidy: its speaker is the user or the model and
    its text is not empty and has no white space at either end. *)
Definition tidy (e : Page.LogEntry) : Prop :=
  (Page.speaker e = "You"%string \/ Page.speaker e = "Orb"%string) /\
  Page.text e <> [] /\
  Page.trim (Page.text e) = Page.text e.

(** The entries a turn adds to the log, from the texts accumulated for the
    user and for the model. *)
Definition turnEntries (input output : Page.jsString) : list Page.LogEntry :=
  (if Page.nonEmpty (Page.trim input)
   then [{| Page.speaker := "You"; Page.text := Page.trim input |}]
   else []) ++
  (if Page.nonEmpty (Page.trim output)
   then [{| Page.speaker := "Orb"; Page.text := Page.trim output |}]
   else []).

(** The session held, if any, was connected with the instruction of the
    language selected now. *)
Definition sessionMatchesLanguage (p : Page.Page) : Prop :=
  match sessionPromise (Page.component p) with
  | Some q =>
      Page.instructions p !! q =
      Some (Page.systemInstruction (Page.selectedLanguage p))
  | None => True
  end.

(** The events of a run in which every answer of [getUserMedia] comes
    before anything else happens: all but the two halves of a
    [startRecording] taken apart. *)
Definition settled (e : Page.Event) : bool :=
  match e with
  | Page.StartClicked | Page.MicrophoneAnswered _ => false
  | _ => true
  end.

(** The recording flag agrees with the capture graph: the stream and both
    nodes are there while recording and cleared otherwise. *)
Definition graphConsistent (s : GdmLiveAudio) : Prop :=
  if isRecording s
  then truthy (mediaStream s) && truthy (sourceNode s)
       && truthy (scriptProcessorNode s) = true
  else mediaStream s = None /\ sourceNode s = None /\
       scriptProcessorNode s = None.

(** A message whose audio branch returns: it has no audio, or its audio
    decodes. *)
Definition audioReturns (decodeAudioData : string -> option Q)
    (message : Page.ServerContent) : bool :=
  match audio (Page.signal message) with
  | Some data => truthy (decodeAudioData data)
  | None => true
  end.

(** The messages of a sequence whose audio branch returns: the ones whose
    transcripts [onmessage] goes on to read. *)
Definition taken (decodeAudioData : string -> option Q)
    (ms : list (Q * Page.ServerContent)) : list (Q * Page.ServerContent) :=
  List.filter (fun a => audioReturns decodeAudioData (snd a)) ms.

(** The events of a sequence of messages, each with the clock at its
    arrival. *)
Definition messageEvents (ms : list (Q * Page.ServerContent)) : list Page.Event :=
  map (fun a => Page.Message (fst a) (snd a)) ms.

(** The events other than an error of the session. *)
Definition notSessionError (e : Page.Event) : bool :=
  match e with Page.SessionError _ => false | _ => true end.

End Notions.

(* ===================================================================== *)
(** ** The audio buffer of the tests *)
(* ===================================================================== *)

Module MockAudio.

(** The buffer the mock [createBuffer] of utils.test.ts returns. Counts are
    natural numbers and the sample rate is positive. *)
Record AudioBuffer : Type := {
  numberOfChannels : nat;
  length : nat;
  sampleRate : positive;
  channels : list (list Q)
}.

(** [duration: length / sampleRate] *)
Definition duration (b : AudioBuffer) : Q :=
  Z.of_nat (length b) # sampleRate b.

(** [new Array(numChannels).fill(null).map(() => new Float32Array(length))] *)
Definition createBuffer (numChannels len : nat) (rate : positive)
  : AudioBuffer :=
  {| numberOfChannels := numChannels; length := len; sampleRate := rate;
     channels := replicate numChannels (replicate len 0%Q) |}.

(** [getChannelData]: [undefined] for a channel the buffer has not. *)
Definition getChannelData (channel : nat) (b : AudioBuffer)
  : option (list Q) :=
  channels b !! channel.

(** [for (let i = start; i < bound; i++) to[i] = from[i]], with [fuel] the
    number of rounds left. *)
Fixpoint copyLoop (fuel i : nat) (from to : list Q) : list Q :=
  match fuel with
  | O => to
  | S fuel' =>
      match from !! i with
      | Some x => copyLoop fuel' (S i) from (<[i := x]> to)
      | None => to
      end
  end.

(** The loop of [copyToChannel] and of [copyFromChannel]: the first
    [Math.min(from.length, to.length)] elements. *)
Definition copy (from to : list Q) : list Q :=
  copyLoop (Nat.min (Datatypes.length from) (Datatypes.length to)) 0 from to.

(** [copyToChannel]; [None] is the [TypeError] of reading the length of a
    channel that does not exist. *)
Definition copyToChannel (source : list Q) (channelNumber : nat)
    (b : AudioBuffer) : option AudioBuffer :=
  match channels b !! channelNumber with
  | Some channel =>
      Some {| numberOfChannels := numberOfChannels b; length := length b;
              sampleRate := sampleRate b;
              channels := <[channelNumber := copy source channel]>
                            (channels b) |}
  | None => None
  end.

(** [copyFromChannel]: the destination after the call. *)
Definition copyFromChannel (destination : list Q) (channelNumber : nat)
    (b : AudioBuffer) : option (list Q) :=
  match channels b !! channelNumber with
  | Some channel => Some (copy channel destination)
  | None => None
  end.

End MockAudio.

(* ===================================================================== *)
(** ** Properties of the codec *)
(* ===================================================================== *)

Module UtilsFacts.

Import Utils.
Local Open Scope N_scope.

(** Goals over [/] and [mod] by constants, on [N]. *)
Ltac euclid := zify; Z.to_euclidean_division_equations; lia.

Lemma b64index_b64char (i : N) : i < 64 -> b64index (b64char i) = Some i.
Proof.
  intros Hi.
  destruct i as [|p]; [reflexivity|].
  do 6 (destruct p as [p|p|]; try reflexivity); exfalso; lia.
Qed.

Lemma is_pad_b64char (i : N) : i < 64 -> is_pad (b64char i) = false.
Proof.
  intros Hi.
  destruct i as [|p]; [reflexivity|].
  do 6 (destruct p as [p|p|]; try reflexivity); exfalso; lia.
Qed.

Lemma to_N_lt (b : byte) : Byte.to_N b < 256.
Proof. pose proof (Byte.to_N_bounded b). lia. Qed.

Lemma byte_of_to_N (b : byte) : byte_of_N (Byte.to_N b) = b.
Proof.
  unfold byte_of_N.
  rewrite N.mod_small by apply to_N_lt.
  now rewrite Byte.of_to_N.
Qed.

Lemma to_N_byte_of (n : N) : Byte.to_N (byte_of_N n) = n mod 256.
Proof.
  unfold byte_of_N.
  destruct (Byte.of_N (n mod 256)) as [b|] eqn:E.
  - now apply Byte.to_of_N in E.
  - apply Byte.of_N_None_iff in E.
    pose proof (N.mod_upper_bound n 256). lia.
Qed.

(** The four sextets of a group of three bytes, and the bytes back. *)
Lemma sextet1 (a : N) : a < 256 -> a / 4 < 64.
Proof. intros. euclid. Qed.

Lemma sextet2 (a b : N) : b < 256 -> (a mod 4) * 16 + b / 16 < 64.
Proof. intros. euclid. Qed.

Lemma sextet3 (b c : N) : c < 256 -> (b mod 16) * 4 + c / 64 < 64.
Proof. intros. euclid. Qed.

Lemma sextet4 (c : N) : c mod 64 < 64.
Proof. euclid. Qed.

Lemma sextet2_last (a : N) : (a mod 4) * 16 < 64.
Proof. euclid. Qed.

Lemma sextet3_last (b : N) : (b mod 16) * 4 < 64.
Proof. euclid. Qed.

Lemma octet1 (a b : N) :
  b < 256 -> (a / 4) * 4 + ((a mod 4) * 16 + b / 16) / 16 = a.
Proof. intros. euclid. Qed.

Lemma octet2 (a b c : N) :
  b < 256 -> c < 256 ->
  (((a mod 4) * 16 + b / 16) mod 16) * 16 + ((b mod 16) * 4 + c / 64) / 4 = b.
Proof. intros. euclid. Qed.

Lemma octet3 (b c : N) :
  c < 256 -> (((b mod 16) * 4 + c / 64) mod 4) * 64 + c mod 64 = c.
Proof. intros. euclid. Qed.

Lemma octet1_last (a : N) : (a / 4) * 4 + ((a mod 4) * 16) / 16 = a.
Proof. euclid. Qed.

Lemma octet2_last (a b : N) :
  b < 256 ->
  (((a mod 4) * 16 + b / 16) mod 16) * 16 + ((b mod 16) * 4) / 4 = b.
Proof. intros. euclid. Qed.

(** Induction over lists three elements at a time. *)
Lemma list_ind3 {A} (P : list A -> Prop) :
  P [] -> (forall x, P [x]) -> (forall x y, P [x; y]) ->
  (forall x y z l, P l -> P (x :: y :: z :: l)) ->
  forall l, P l.
Proof.
  intros H0 H1 H2 H3 l.
  enough (P l /\ (forall x, P (x :: l)) /\ (forall x y, P (x :: y :: l)))
    as [H _] by exact H.
  induction l as [|z l (IH0 & IH1 & IH2)]; [now auto|].
  split; [apply IH1|]. split; [intros x; apply IH2|].
  intros x y. now apply H3.
Qed.

(** Induction over lists two elements at a time. *)
Lemma list_ind2 {A} (P : list A -> Prop) :
  P [] -> (forall x, P [x]) -> (forall x y l, P l -> P (x :: y :: l)) ->
  forall l, P l.
Proof.
  intros H0 H1 H2 l.
  enough (P l /\ forall x, P (x :: l)) as [H _] by exact H.
  induction l as [|y l (IH0 & IH1)]; [now auto|].
  split; [apply IH1|]. intros x. now apply H2.
Qed.

Lemma decode_encode_group (x y z : byte) (rest : bytes) :
  decode (encode rest) = Some rest ->
  decode (encode (x :: y :: z :: rest)) = Some (x :: y :: z :: rest).
Proof.
  intros IH.
  pose proof (to_N_lt x) as Hx. pose proof (to_N_lt y) as Hy.
  pose proof (to_N_lt z) as Hz.
  cbn [encode decode].
  rewrite (b64index_b64char _ (sextet1 _ Hx)).
  rewrite (b64index_b64char _ (sextet2 _ _ Hy)).
  rewrite (is_pad_b64char _ (sextet3 _ _ Hz)).
  rewrite (b64index_b64char _ (sextet3 _ _ Hz)).
  rewrite (is_pad_b64char _ (sextet4 _)).
  rewrite (b64index_b64char _ (sextet4 _)).
  rewrite IH.
  rewrite (octet1 _ _ Hy), (octet2 _ _ _ Hy Hz), (octet3 _ _ Hz).
  now rewrite !byte_of_to_N.
Qed.

Lemma decode_encode_one (x : byte) : decode (encode [x]) = Some [x].
Proof.
  pose proof (to_N_lt x) as Hx.
  cbn [encode decode].
  rewrite (b64index_b64char _ (sextet1 _ Hx)).
  rewrite (b64index_b64char _ (sextet2_last _)).
  change (is_pad pad) with true. cbn [andb is_empty].
  now rewrite octet1_last, byte_of_to_N.
Qed.

Lemma decode_encode_two (x y : byte) : decode (encode [x; y]) = Some [x; y].
Proof.
  pose proof (to_N_lt x) as Hx. pose proof (to_N_lt y) as Hy.
  cbn [encode decode].
  rewrite (b64index_b64char _ (sextet1 _ Hx)).
  rewrite (b64index_b64char _ (sextet2 _ _ Hy)).
  rewrite (is_pad_b64char _ (sextet3_last _)).
  rewrite (b64index_b64char _ (sextet3_last _)).
  change (is_pad pad) with true. cbn [is_empty].
  rewrite (octet1 _ _ Hy), (octet2_last _ _ Hy).
  now rewrite !byte_of_to_N.
Qed.

(** The vectors of the tests of [encode] and [decode]. *)
Example encode_hello :
  encode [x48; x65; x6c; x6c; x6f] = "SGVsbG8="%string /\
  encode [x41] = "QQ=="%string /\
  decode "SGVsbG8=" = Some [x48; x65; x6c; x6c; x6f] /\
  decode "" = Some [] /\
  decode "SGVsbG8" = None.
Proof. repeat split. Qed.

(** The text of a blob decodes to the bytes it was made of. *)
Lemma decode_encode_inv (b : bytes) : decode (encode b) = Some b.
Proof.
  induction b using list_ind3;
    auto using decode_encode_one, decode_encode_two, decode_encode_group.
Qed.

(** C7. Decoding is the exact inverse of encoding: for every byte sequence
    [b], [decode (encode b)] succeeds and gives [b] back; the empty
    sequence encodes to the empty text. *)
Theorem base64_round_trip (b : bytes) :
  decode (encode b) = Some b /\ encode [] = EmptyString.
Proof.
  split; [|reflexivity].
  induction b as [|x|x y|x y z rest IH] using list_ind3.
  - reflexivity.
  - apply decode_encode_one.
  - apply decode_encode_two.
  - now apply decode_encode_group.
Qed.

(** A 16-bit word read back from its two bytes. *)
Lemma int16_words_bytes (w : Z) (rest : bytes) :
  (-32768 <= w < 32768)%Z ->
  int16_words (int16_bytes w ++ rest) =
  match int16_words rest with Some ws => Some (w :: ws) | None => None end.
Proof.
  intros Hw. unfold int16_bytes. cbn [app int16_words].
  rewrite !to_N_byte_of.
  set (u := (_ + 256 * _)%Z).
  assert (Hu : u = (w mod 65536)%Z) by (subst u; euclid).
  assert (Hif : (if (u <? 32768)%Z then u else (u - 65536)%Z) = w).
  { rewrite Hu. destruct (Z.ltb_spec (w mod 65536) 32768); euclid. }
  now rewrite Hif.
Qed.

Lemma toInt16_range (z : Z) : (-32768 <= toInt16 z < 32768)%Z.
Proof. unfold toInt16. euclid. Qed.

(** No element of an [Int16Array] lies outside the 16-bit range. *)
Lemma int16_words_range (bs : bytes) (ws : list Z) :
  int16_words bs = Some ws -> Forall (fun w => -32768 <= w < 32768)%Z ws.
Proof.
  revert ws. induction bs as [| |lo hi rest IH] using list_ind2;
    intros ws H; cbn [int16_words] in H.
  - injection H as <-. constructor.
  - discriminate.
  - destruct (int16_words rest) as [tl|]; [|discriminate].
    injection H as <-. constructor; [|now apply IH].
    pose proof (to_N_lt lo). pose proof (to_N_lt hi).
    destruct (Z.ltb_spec (Z.of_N (Byte.to_N lo) + 256 * Z.of_N (Byte.to_N hi))
                32768); lia.
Qed.

Lemma int16_words_range_blob (blob : Blob) (ws : list Z) :
  readBack blob = Some ws -> Forall (fun w => -32768 <= w < 32768)%Z ws.
Proof.
  unfold readBack. destruct (decode (data blob)); [|discriminate].
  apply int16_words_range.
Qed.

(** The words of the samples of a blob: each sample scaled by 32768,
    rounded and wrapped to 16 bits. *)
Lemma readBack_createBlob (samples : list Q) :
  readBack (createBlob samples) =
  Some (map (fun x => toInt16 (roundNearest (x * 32768))) samples).
Proof.
  unfold readBack, createBlob. cbn [data].
  rewrite decode_encode_inv.
  unfold floatToPcm.
  induction samples as [|x rest IH]; [reflexivity|].
  cbn [map concat].
  rewrite int16_words_bytes by apply toInt16_range.
  now rewrite IH.
Qed.

(** C6. The words read back from the blob of [[1.0, -1.0]] are not
    [[32768, -32768]], the value the claim and the test of [createBlob]
    expect: no element of an [Int16Array] is 32768, whatever the
    conversion stores for the sample 1.0. *)
Lemma createBlob_max_amplitude_not_32768 :
  readBack (createBlob [1%Q; (-1)%Q]) <> Some [32768%Z; (-32768)%Z].
Proof.
  intros H. apply int16_words_range_blob in H.
  inversion H as [|w ws Hw _]; subst. lia.
Qed.

End UtilsFacts.

(* ===================================================================== *)
(** ** Properties of the component *)
(* ===================================================================== *)
Module ComponentFacts.

Import Component.
Local Open Scope Q_scope.
Local Open Scope method_scope.

(** *** Playback *)

Section Playback.

Variable decodeAudioData : string -> option Q.

Lemma max_anchor (cursor now : Q) : cursor < now -> Qmax cursor now = now.
Proof.
  intros H. unfold Qmax, GenericMinMax.gmax.
  now rewrite (proj1 (Qlt_alt _ _) H).
Qed.

Lemma max_keep (cursor now : Q) : now <= cursor -> Qmax cursor now = cursor.
Proof.
  intros H. unfold Qmax, GenericMinMax.gmax.
  destruct (cursor ?= now) eqn:E; try reflexivity.
  apply Qlt_alt in E. lra.
Qed.

Lemma max_ge (cursor now : Q) : now <= Qmax cursor now.
Proof.
  destruct (Qlt_le_dec cursor now) as [H|H].
  - rewrite (max_anchor _ _ H). lra.
  - now rewrite (max_keep _ _ H).
Qed.

(** What the audio branch does with a chunk that decodes. *)
Lemma schedule_decoded (now : Q) (data : string) (d : Q) (s : GdmLiveAudio) :
  decodeAudioData data = Some d ->
  schedule decodeAudioData now data s =
  (Returns tt,
   let t := Qmax (nextStartTime s) now in
   {| isRecording := isRecording s; status := status s;
      sessionPromise := sessionPromise s; nextStartTime := t + d;
      mediaStream := mediaStream s; sourceNode := sourceNode s;
      scriptProcessorNode := scriptProcessorNode s;
      sources := {[objects s]} ∪ sources s;
      calls := calls s ++ [Start (objects s) t];
      objects := S (objects s) |}).
Proof.
  intros Hd. unfold schedule, decodeBuffer. rewrite Hd. now destruct s.
Qed.

Lemma schedule_failed (now : Q) (data : string) (s : GdmLiveAudio) :
  decodeAudioData data = None ->
  schedule decodeAudioData now data s =
  (Throws "DecodeError", set_nextStartTime (Qmax (nextStartTime s) now) s).
Proof.
  intros Hd. unfold schedule, decodeBuffer. rewrite Hd. now destruct s.
Qed.

Lemma onmessage_chunk (now : Q) (data : string) (s : GdmLiveAudio) :
  onmessage decodeAudioData now (chunk data) s =
  schedule decodeAudioData now data s.
Proof.
  unfold onmessage, chunk, bind. cbn [audio interrupted when].
  now destruct (schedule decodeAudioData now data s) as [[[]|e] s'].
Qed.

Lemma starts_snoc (cs : list Call) (h : handle) (t : Q) :
  starts (cs ++ [Start h t]) = starts cs ++ [t].
Proof. unfold starts. now rewrite omap_app. Qed.

(** The loop of the interrupted branch over the members [l]. *)
Lemma stop_loop (l : list handle) (s : GdmLiveAudio) :
  for_of l (fun source =>
    modify (call (Stop source)) ;;
    modify (fun s => set_sources (sources s ∖ {[source]}) s)) s =
  (Returns tt,
   {| isRecording := isRecording s; status := status s;
      sessionPromise := sessionPromise s; nextStartTime := nextStartTime s;
      mediaStream := mediaStream s; sourceNode := sourceNode s;
      scriptProcessorNode := scriptProcessorNode s;
      sources := sources s ∖ list_to_set l;
      calls := calls s ++ map Stop l;
      objects := objects s |}).
Proof.
  revert s. induction l as [|h l IH]; intros [rec st sp t ms sn pn srcs cs k].
  - cbn. now rewrite difference_empty_L, app_nil_r.
  - cbn [for_of]. unfold bind at 1. cbn [bind modify call set_sources].
    rewrite IH. cbn.
    now rewrite difference_difference_l_L, <- app_assoc.
Qed.

Lemma interrupt_spec (s : GdmLiveAudio) :
  interrupt s =
  (Returns tt,
   {| isRecording := isRecording s; status := status s;
      sessionPromise := sessionPromise s; nextStartTime := 0;
      mediaStream := mediaStream s; sourceNode := sourceNode s;
      scriptProcessorNode := scriptProcessorNode s;
      sources := ∅;
      calls := calls s ++ map Stop (elements (sources s));
      objects := objects s |}).
Proof.
  unfold interrupt. unfold bind at 1. cbn [gets].
  unfold bind. rewrite stop_loop. destruct s. cbn.
  now rewrite list_to_set_elements_L, difference_diag_L.
Qed.

(** Chunks that arrive while the cursor is ahead of the clock. *)
Lemma arrivals_notOvertaken (chunks : list (Q * string)) (ds : list Q)
    (s : GdmLiveAudio) :
  Forall2 (fun a d => decodeAudioData (snd a) = Some d) chunks ds ->
  notOvertaken (nextStartTime s) (zip (map fst chunks) ds) ->
  let ms := map (fun a => (fst a, chunk (snd a))) chunks in
  starts (calls (arrivals decodeAudioData ms s)) =
    starts (calls s) ++ backToBack (nextStartTime s) ds /\
  cursors decodeAudioData ms s =
    zip_with Qplus (backToBack (nextStartTime s) ds) ds.
Proof.
  intros Hdec. revert s.
  induction Hdec as [|[now data] d chunks ds Hd _ IH]; intros s Hclock.
  - cbn. now rewrite app_nil_r.
  - cbn in Hclock. destruct Hclock as [Hnow Hrest].
    cbn [map fst snd arrivals cursors backToBack zip_with].
    unfold exec. rewrite onmessage_chunk, (schedule_decoded _ _ _ _ Hd).
    cbn [snd] in *. rewrite (max_keep _ _ Hnow). cbn zeta.
    match goal with |- context [arrivals _ _ ?x] => set (s1 := x) end.
    destruct (IH s1 Hrest) as [IHs IHc]. rewrite IHs, IHc.
    subst s1. cbn [nextStartTime calls].
    now rewrite starts_snoc, <- app_assoc.
Qed.

(** C1. Chunks of durations [d1, d2, ...] that arrive while the clock
    does not overtake the cursor are started at [t0], [t0 + d1],
    [t0 + d1 + d2], ..., with [t0] no earlier than the clock at the first
    arrival, whatever the spacing of the arrivals; after each scheduling
    the cursor is the scheduled start plus the duration of that buffer. *)
Theorem scheduling_contiguity (s : GdmLiveAudio) (now1 : Q) (data1 : string)
    (d1 : Q) (rest : list (Q * string)) (ds : list Q) :
  decodeAudioData data1 = Some d1 ->
  Forall2 (fun a d => decodeAudioData (snd a) = Some d) rest ds ->
  notOvertaken (Qmax (nextStartTime s) now1 + d1) (zip (map fst rest) ds) ->
  let t0 := Qmax (nextStartTime s) now1 in
  let ms := map (fun a => (fst a, chunk (snd a))) ((now1, data1) :: rest) in
  now1 <= t0 /\
  starts (calls (arrivals decodeAudioData ms s)) =
    starts (calls s) ++ backToBack t0 (d1 :: ds) /\
  cursors decodeAudioData ms s =
    zip_with Qplus (backToBack t0 (d1 :: ds)) (d1 :: ds).
Proof.
  intros Hd1 Hdec Hclock t0 ms. split; [apply max_ge|].
  subst ms. cbn [map fst snd arrivals cursors backToBack zip_with].
  unfold exec. rewrite onmessage_chunk, (schedule_decoded _ _ _ _ Hd1).
  cbn [snd]. fold t0. cbn zeta.
  match goal with |- context [arrivals _ _ ?x] => set (s1 := x) end.
  destruct (arrivals_notOvertaken rest ds s1 Hdec Hclock) as [Hs Hc].
  rewrite Hs, Hc. subst s1. cbn [nextStartTime calls].
  now rewrite starts_snoc, <- app_assoc.
Qed.

Lemma onmessage_bargeIn (now : Q) (s : GdmLiveAudio) :
  onmessage decodeAudioData now bargeIn s = interrupt s.
Proof. reflexivity. Qed.

(** C2. From every state of the in-flight set, the interrupt path (the
    interrupted branch, which is all a message that only signals an
    interruption runs) commands a stop on every source of the set and on
    nothing else, leaves the set empty and the cursor at the sentinel 0,
    and does not throw; from an empty set it changes nothing but the
    cursor. *)
Theorem interrupt_flushes (s : GdmLiveAudio) (now : Q) :
  let s' := exec interrupt s in
  onmessage decodeAudioData now bargeIn s = interrupt s /\
  outcome interrupt s = Returns tt /\
  calls s' = calls s ++ map Stop (elements (sources s)) /\
  sources s' = ∅ /\
  nextStartTime s' = 0 /\
  exec interrupt (set_sources ∅ s) = set_nextStartTime 0 (set_sources ∅ s).
Proof.
  unfold exec, outcome. rewrite !interrupt_spec.
  destruct s. cbn. rewrite elements_empty. cbn. rewrite app_nil_r.
  repeat split; reflexivity.
Qed.

(** The cursor after [reset] is the cursor before it. *)
Lemma reset_keeps_cursor (s : GdmLiveAudio) :
  nextStartTime (exec reset s) = nextStartTime s.
Proof.
  destruct s as [rec st [p|] t [m|] [n|] [q|] srcs cs k];
    destruct rec; reflexivity.
Qed.

(** C3, amended. After a chunk of non-negative duration is scheduled the
    cursor is no earlier than the clock at its arrival: it is the
    scheduled start, [max cursor clock], plus exactly the duration of the
    buffer. An interruption sets the cursor to the sentinel 0, not to the
    clock; [reset] leaves it as it is; [initAudio] sets it to the clock. *)
Theorem cursor_after_operations (s : GdmLiveAudio) (now : Q) (data : string)
    (d : Q) :
  decodeAudioData data = Some d ->
  0 <= d ->
  (let s' := exec (onmessage decodeAudioData now (chunk data)) s in
   now <= nextStartTime s' /\
   nextStartTime s' = Qmax (nextStartTime s) now + d /\
   starts (calls s') = starts (calls s) ++ [Qmax (nextStartTime s) now]) /\
  nextStartTime (exec (onmessage decodeAudioData now bargeIn) s) = 0 /\
  nextStartTime (exec reset s) = nextStartTime s /\
  nextStartTime (exec (initAudio now) s) = now.
Proof.
  intros Hd Hpos. repeat split.
  - unfold exec. rewrite onmessage_chunk, (schedule_decoded _ _ _ _ Hd).
    cbn. pose proof (max_ge (nextStartTime s) now). lra.
  - unfold exec. now rewrite onmessage_chunk, (schedule_decoded _ _ _ _ Hd).
  - unfold exec. rewrite onmessage_chunk, (schedule_decoded _ _ _ _ Hd).
    cbn [snd calls]. apply starts_snoc.
  - unfold exec. now rewrite onmessage_bargeIn, interrupt_spec.
  - apply reset_keeps_cursor.
  - now destruct s.
Qed.

Lemma max_absorbs (cursor now later : Q) :
  now <= later -> Qmax (Qmax cursor now) later == Qmax cursor later.
Proof.
  intros Hlater.
  destruct (Qlt_le_dec cursor now) as [H|H].
  - rewrite (max_anchor _ _ H).
    rewrite (Q.max_r now later Hlater), (Q.max_r cursor later); lra.
  - now rewrite (max_keep _ _ H).
Qed.

(** C4, amended. A chunk whose decoding fails is dropped: the handler
    throws [DecodeError], nothing is started and the in-flight set is
    what it was; the cursor has already been moved to [max cursor clock]
    and stays there, and nothing else of the state changes. A chunk that
    arrives later is anchored as if the failed one had not arrived. *)
Theorem decode_failure_drops_chunk (s : GdmLiveAudio) (now : Q)
    (message : LiveServerMessage) (data : string) :
  audio message = Some data ->
  decodeAudioData data = None ->
  let s' := exec (onmessage decodeAudioData now message) s in
  outcome (onmessage decodeAudioData now message) s = Throws "DecodeError" /\
  s' = set_nextStartTime (Qmax (nextStartTime s) now) s /\
  sources s' = sources s /\
  calls s' = calls s /\
  forall later, now <= later ->
    Qmax (nextStartTime s') later == Qmax (nextStartTime s) later.
Proof.
  intros Ha Hd. unfold exec, outcome, onmessage. rewrite Ha.
  unfold bind at 1 2 3 4 5. rewrite (schedule_failed _ _ _ Hd).
  destruct s. cbn. repeat split; try reflexivity.
  intros later. apply max_absorbs.
Qed.

(** C5. A chunk that arrives when the cursor is behind the clock is
    started at the clock time of its arrival, not at the stale cursor. *)
Theorem stale_cursor_reanchors (s : GdmLiveAudio) (now : Q) (data : string)
    (d : Q) :
  nextStartTime s < now ->
  decodeAudioData data = Some d ->
  let s' := exec (onmessage decodeAudioData now (chunk data)) s in
  calls s' = calls s ++ [Start (objects s) now] /\
  nextStartTime s' = now + d.
Proof.
  intros Hstale Hd. unfold exec.
  rewrite onmessage_chunk, (schedule_decoded _ _ _ _ Hd).
  cbn. now rewrite (max_anchor _ _ Hstale).
Qed.

End Playback.

(** The scenario of the spec: two buffers of half a second, the first
    arriving at clock 0 and the second at clock 0.1, are started at 0 and
    at 0.5, and the cursor becomes 0.5 and then 1. *)
Lemma scheduling_contiguity_witness :
  let dec := fun _ : string => Some (1 # 2) in
  let s := constructor 0 in
  let ms := [(0, chunk "first"%string); (1 # 10, chunk "second"%string)] in
  (dec "first"%string = Some (1 # 2) /\
   Forall2 (fun a d => dec (snd a) = Some d) [(1 # 10, "second"%string)]
     [1 # 2] /\
   notOvertaken (Qmax (nextStartTime s) 0 + (1 # 2)) [(1 # 10, 1 # 2)]) /\
  0 <= 0 /\
  starts (calls (arrivals dec ms s)) = [0; 0 + (1 # 2)] /\
  cursors dec ms s = [0 + (1 # 2); 0 + (1 # 2) + (1 # 2)].
Proof.
  intros dec s ms.
  assert (H1 : dec "first"%string = Some (1 # 2)) by reflexivity.
  assert (H2 : Forall2 (fun a d => dec (snd a) = Some d)
                 [(1 # 10, "second"%string)] [1 # 2])
    by (repeat constructor).
  assert (H3 : notOvertaken (Qmax (nextStartTime s) 0 + (1 # 2))
                 [(1 # 10, 1 # 2)])
    by (split; [discriminate | exact I]).
  split; [now repeat split|].
  exact (scheduling_contiguity dec s 0 "first"%string (1 # 2)
           [(1 # 10, "second"%string)] [1 # 2] H1 H2 H3).
Defined.

(** C3, as the spec states it, fails: after an interruption at clock 1 the
    cursor is 0, which is neither at or after the clock nor the clock's
    current time. *)
Lemma interrupt_leaves_cursor_behind_clock :
  let s' := exec (onmessage (fun _ => None) 1 bargeIn) (constructor 1) in
  ~ (1 <= nextStartTime s') /\ ~ (nextStartTime s' == 1).
Proof. cbn. split; intros H; [now apply H | discriminate H]. Qed.

Lemma cursor_after_operations_witness :
  let dec := fun _ : string => Some (1 # 2) in
  let s := constructor 0 in
  (dec "chunk"%string = Some (1 # 2) /\ 0 <= 1 # 2) /\
  (let s' := exec (onmessage dec 3 (chunk "chunk"%string)) s in
   3 <= nextStartTime s' /\
   nextStartTime s' = Qmax (nextStartTime s) 3 + (1 # 2) /\
   starts (calls s') = starts (calls s) ++ [Qmax (nextStartTime s) 3]) /\
  nextStartTime (exec (onmessage dec 3 bargeIn) s) = 0 /\
  nextStartTime (exec reset s) = nextStartTime s /\
  nextStartTime (exec (initAudio 3) s) = 3.
Proof.
  intros dec s.
  assert (H1 : dec "chunk"%string = Some (1 # 2)) by reflexivity.
  assert (H2 : 0 <= 1 # 2) by discriminate.
  split; [now split|].
  exact (cursor_after_operations dec s 3 "chunk"%string (1 # 2) H1 H2).
Defined.

(** C4, as the spec states it, fails: a chunk that does not decode,
    arriving at clock 5 with the cursor at 0, leaves the cursor at 5. *)
Lemma decode_failure_moves_cursor :
  let dec := fun _ : string => None in
  let s := constructor 0 in
  let s' := exec (onmessage dec 5 (chunk "malformed"%string)) s in
  outcome (onmessage dec 5 (chunk "malformed"%string)) s =
    Throws "DecodeError" /\
  nextStartTime s = 0 /\ nextStartTime s' = 5 /\
  ~ (nextStartTime s' == nextStartTime s) /\ s' <> s.
Proof.
  cbn. repeat split; try discriminate.
Qed.

Lemma decode_failure_drops_chunk_witness :
  let dec := fun _ : string => None in
  let s := constructor 0 in
  let message := chunk "malformed"%string in
  (audio message = Some "malformed"%string /\ dec "malformed"%string = None) /\
  let s' := exec (onmessage dec 5 message) s in
  outcome (onmessage dec 5 message) s = Throws "DecodeError" /\
  s' = set_nextStartTime (Qmax (nextStartTime s) 5) s /\
  sources s' = sources s /\
  calls s' = calls s /\
  forall later, 5 <= later ->
    Qmax (nextStartTime s') later == Qmax (nextStartTime s) later.
Proof.
  intros dec s message.
  assert (H1 : audio message = Some "malformed"%string) by reflexivity.
  assert (H2 : dec "malformed"%string = None) by reflexivity.
  split; [now split|].
  exact (decode_failure_drops_chunk dec s 5 message "malformed"%string H1 H2).
Defined.

Lemma stale_cursor_reanchors_witness :
  let dec := fun _ : string => Some (1 # 2) in
  let s := constructor 0 in
  (nextStartTime s < 60 /\ dec "late"%string = Some (1 # 2)) /\
  let s' := exec (onmessage dec 60 (chunk "late"%string)) s in
  calls s' = calls s ++ [Start (objects s) 60] /\
  nextStartTime s' = 60 + (1 # 2).
Proof.
  intros dec s.
  assert (H1 : nextStartTime s < 60) by reflexivity.
  assert (H2 : dec "late"%string = Some (1 # 2)) by reflexivity.
  split; [now split|].
  exact (stale_cursor_reanchors dec s 60 "late"%string (1 # 2) H1 H2).
Defined.

(** The scenario of the spec in decimal: the second buffer starts at 0.5
    and the cursor ends at 1. *)
Example half_second_buffers :
  let s := arrivals (fun _ => Some (1 # 2))
             [(0, chunk "first"); (1 # 10, chunk "second")] (constructor 0) in
  Forall2 Qeq (starts (calls s)) [0; 1 # 2] /\ nextStartTime s == 1.
Proof. split; [repeat constructor|]; reflexivity. Qed.

(** The natural end of a source removes it from the in-flight set and
    touches neither the cursor nor the log. *)
Lemma ended_removes (h : handle) (s : GdmLiveAudio) :
  let s' := exec (ended h) s in
  sources s' = sources s ∖ {[h]} /\
  nextStartTime s' = nextStartTime s /\ calls s' = calls s.
Proof. now destruct s. Qed.

(** *** Capture *)

Lemma sends_app (cs ds : list Call) : sends (cs ++ ds) = sends cs ++ sends ds.
Proof. apply omap_app. Qed.

(** All the states [s] to consider, by the fields the capture code tests. *)
Ltac by_fields s :=
  destruct s as [rec st [session|] t [m|] [n|] [p|] srcs cs k];
  try destruct rec.

(** [stopRecording] never throws and always leaves the capture stopped. *)
Lemma stopRecording_stops (s : GdmLiveAudio) :
  outcome stopRecording s = Returns tt /\
  capture (exec stopRecording s) = (false, None, None, None).
Proof. by_fields s; cbn; split; reflexivity. Qed.


(** C8. A block whose callback fires once the liveness flag is cleared,
    whether [stopRecording] has only cleared it or has run to its end, is
    discarded: the callback returns with the state as it was and no send
    is registered for the block. *)
Theorem block_after_stop_discarded (s : GdmLiveAudio) (pcm : list Q) :
  let stopped := exec stopRecording s in
  isRecording stopped = false /\
  onaudioprocess pcm stopped = (Returns tt, stopped) /\
  sends (calls (exec (onaudioprocess pcm) stopped)) = sends (calls s) /\
  onaudioprocess pcm (set_isRecording false s) =
    (Returns tt, set_isRecording false s).
Proof.
  by_fields s; cbn; rewrite ?sends_app; cbn; rewrite ?app_nil_r;
    repeat split.
Qed.

(** C9. [stopRecording] on a capture that is already stopped throws
    nothing, leaves the capture state as it is and makes no call; run twice
    from any state, it leaves the state the first run left. *)
Theorem stopRecording_idempotent (idle s : GdmLiveAudio) :
  capture idle = (false, None, None, None) ->
  (outcome stopRecording idle = Returns tt /\
   capture (exec stopRecording idle) = capture idle /\
   calls (exec stopRecording idle) = calls idle) /\
  (outcome stopRecording (exec stopRecording s) = Returns tt /\
   exec stopRecording (exec stopRecording s) = exec stopRecording s).
Proof.
  intros Hidle. split.
  - by_fields idle; try discriminate Hidle; cbn; repeat split.
  - by_fields s; cbn; repeat split.
Qed.

Lemma stopRecording_idempotent_witness :
  let idle := constructor 0 in
  let s := exec (startRecording None) (constructor 0) in
  capture idle = (false, None, None, None) /\
  (outcome stopRecording idle = Returns tt /\
   capture (exec stopRecording idle) = capture idle /\
   calls (exec stopRecording idle) = calls idle) /\
  (outcome stopRecording (exec stopRecording s) = Returns tt /\
   exec stopRecording (exec stopRecording s) = exec stopRecording s).
Proof.
  intros idle s.
  assert (H : capture idle = (false, None, None, None)) by reflexivity.
  split; [exact H|].
  exact (stopRecording_idempotent idle s H).
Defined.

(** C10. A run of [startRecording] in which [getUserMedia] or a later
    call of the wiring throws ends in [stopRecording]: the error is caught,
    the component is not recording, both nodes and the media stream are
    cleared, the tracks of a stream acquired on the way are stopped, and a
    later [startRecording] that meets no error records. [startRecording]
    while recording does nothing. *)
Theorem startRecording_failure_recovers (s busy : GdmLiveAudio) (step : Step)
    (message : string) (browser : Browser) :
  isRecording s = false ->
  isRecording busy = true ->
  let failed := exec (startRecording (Some (step, message))) s in
  (outcome (startRecording (Some (step, message))) s = Returns tt /\
   capture failed = (false, None, None, None) /\
   status failed = "Recording stopped. Click Start to begin again."%string /\
   (exists new, calls failed = calls s ++ new /\
      Forall (fun m => TrackStop m ∈ new) (acquired new)) /\
   isRecording (exec (startRecording None) failed) = true) /\
  startRecording browser busy = (Returns tt, busy).
Proof.
  intros Hs Hbusy. split.
  - by_fields s; try discriminate Hs; destruct step; cbn;
      (split; [reflexivity|]); (split; [reflexivity|]);
      (split; [reflexivity|]); (split; [|reflexivity]);
      rewrite <- ?app_assoc;
      first [ eexists; split; [reflexivity|]
            | exists []; split; [now rewrite app_nil_r|] ];
      cbn; repeat constructor.
  - unfold startRecording, bind, gets. now rewrite Hbusy.
Qed.

(** A failure of [createScriptProcessor] in a new component: the session is
    connected, the stream is acquired and its tracks are stopped. *)
Example startRecording_wiring_failure :
  let failed :=
    exec (startRecording (Some (CreateScriptProcessor, "unsupported"%string)))
      (constructor 0) in
  calls failed = [Connect 0%nat; Acquired 1%nat; TrackStop 1%nat] /\
  capture failed = (false, None, None, None).
Proof. split; reflexivity. Qed.

Lemma startRecording_failure_recovers_witness :
  let s := constructor 0 in
  let busy := exec (startRecording None) (constructor 0) in
  let step := GetUserMedia in
  let message := "Permission denied"%string in
  let browser : Browser := None in
  (isRecording s = false /\ isRecording busy = true) /\
  let failed := exec (startRecording (Some (step, message))) s in
  (outcome (startRecording (Some (step, message))) s = Returns tt /\
   capture failed = (false, None, None, None) /\
   status failed = "Recording stopped. Click Start to begin again."%string /\
   (exists new, calls failed = calls s ++ new /\
      Forall (fun m => TrackStop m ∈ new) (acquired new)) /\
   isRecording (exec (startRecording None) failed) = true) /\
  startRecording browser busy = (Returns tt, busy).
Proof.
  intros s busy step message browser.
  assert (H1 : isRecording s = false) by reflexivity.
  assert (H2 : isRecording busy = true) by reflexivity.
  split; [now split|].
  exact (startRecording_failure_recovers s busy step message browser H1 H2).
Defined.

End ComponentFacts.

(* ===================================================================== *)
(** ** More on playback *)
(* ===================================================================== *)

Module PlaybackFacts.

Import Component Notions ComponentFacts.
Local Open Scope Q_scope.
Local Open Scope method_scope.

Section Playback.

Variable decodeAudioData : string -> option Q.

(** Any sequence of chunks that decode, at any clock times: the buffers
    neither overlap nor start in the past. *)
Theorem arrivals_noOverlap (chunks : list (Q * string)) (ds : list Q)
    (s : GdmLiveAudio) :
  Forall2 (fun a d => decodeAudioData (snd a) = Some d) chunks ds ->
  let ms := map (fun a => (fst a, chunk (snd a))) chunks in
  exists ts,
    starts (calls (arrivals decodeAudioData ms s)) = starts (calls s) ++ ts /\
    Datatypes.length ts = Datatypes.length chunks /\
    noOverlap (nextStartTime s) (zip (zip (map fst chunks) ts) ds).
Proof.
  intros Hdec. revert s.
  induction Hdec as [|[now data] d chunks ds Hd _ IH]; intros s.
  - exists []. cbn. now rewrite app_nil_r.
  - cbn [map fst snd arrivals].
    unfold exec. rewrite onmessage_chunk, (schedule_decoded _ _ _ _ _ Hd).
    cbn [snd] in *. cbn zeta.
    match goal with |- context [arrivals _ _ ?x] => set (s1 := x) end.
    destruct (IH s1) as (ts & Hs & Hlen & Hno).
    exists (Qmax (nextStartTime s) now :: ts). split; [|split].
    + rewrite Hs. subst s1. cbn [calls].
      now rewrite starts_snoc, <- app_assoc.
    + cbn. now rewrite Hlen.
    + cbn. split; [apply max_ge|]. split; [|exact Hno].
      destruct (Qlt_le_dec (nextStartTime s) now) as [H|H].
      * rewrite (max_anchor _ _ H). lra.
      * rewrite (max_keep _ _ H). lra.
Qed.

Lemma max_ge_cursor (cursor now : Q) : cursor <= Qmax cursor now.
Proof.
  destruct (Qlt_le_dec cursor now) as [H|H].
  - rewrite (max_anchor _ _ H). lra.
  - rewrite (max_keep _ _ H). lra.
Qed.

(** Chunks alone, decoded or not, never move the cursor backwards when no
    buffer has a negative duration. *)
Theorem cursor_never_decreases (chunks : list (Q * string))
    (s : GdmLiveAudio) :
  (forall data d, decodeAudioData data = Some d -> 0 <= d) ->
  nextStartTime s <=
  nextStartTime
    (arrivals decodeAudioData
       (map (fun a => (fst a, chunk (snd a))) chunks) s).
Proof.
  intros Hpos. revert s.
  induction chunks as [|[now data] chunks IH]; intros s; [cbn; lra|].
  cbn [map fst snd arrivals]. unfold exec. rewrite onmessage_chunk.
  pose proof (max_ge_cursor (nextStartTime s) now) as Hmax.
  destruct (decodeAudioData data) as [d|] eqn:Hd.
  - rewrite (schedule_decoded _ _ _ _ _ Hd). cbn [snd]. cbn zeta.
    match goal with |- context [arrivals _ _ ?x] => set (s1 := x) end.
    specialize (IH s1). subst s1. cbn [nextStartTime] in IH.
    specialize (Hpos _ _ Hd). lra.
  - rewrite (schedule_failed _ _ _ _ Hd). cbn [snd].
    match goal with |- context [arrivals _ _ ?x] => set (s1 := x) end.
    specialize (IH s1). subst s1.
    assert (E : nextStartTime
                  (set_nextStartTime (Qmax (nextStartTime s) now) s) =
                Qmax (nextStartTime s) now) by now destruct s.
    rewrite E in IH. lra.
Qed.

(** After an interruption the next chunk starts at the clock of its
    arrival: the sentinel 0 never survives a clock that is not negative. *)
Theorem chunk_after_interrupt_starts_now (s : GdmLiveAudio) (now : Q)
    (data : string) (d : Q) :
  0 <= now ->
  decodeAudioData data = Some d ->
  let flushed := exec interrupt s in
  let s' := exec (onmessage decodeAudioData now (chunk data)) flushed in
  exists t,
    calls s' = calls flushed ++ [Start (objects s) t] /\
    t == now /\ nextStartTime s' == now + d /\ sources s' = {[objects s]}.
Proof.
  intros Hnow Hd. cbv zeta. unfold exec.
  rewrite onmessage_chunk, interrupt_spec. cbn [snd].
  rewrite (schedule_decoded _ _ _ _ _ Hd). cbn.
  exists (Qmax 0 now). split; [reflexivity|].
  assert (E : Qmax 0 now == now) by (apply Q.max_r; exact Hnow).
  split; [exact E|]. split; [now rewrite E|].
  apply union_empty_r_L.
Qed.

(** A chunk that comes in the message that signals the interruption is
    started and stopped by the same handler: nothing stays in flight. *)
Theorem chunk_with_interrupt_is_flushed (s : GdmLiveAudio) (now : Q)
    (data : string) (d : Q) :
  decodeAudioData data = Some d ->
  let message := {| audio := Some data; interrupted := true |} in
  let s' := exec (onmessage decodeAudioData now message) s in
  outcome (onmessage decodeAudioData now message) s = Returns tt /\
  calls s' =
    calls s ++ Start (objects s) (Qmax (nextStartTime s) now)
      :: map Stop (elements ({[objects s]} ∪ sources s)) /\
  objects s ∈ stopped (calls s') /\
  sources s' = ∅ /\ nextStartTime s' = 0.
Proof.
  intros Hd. cbv zeta. unfold exec, outcome, onmessage. cbn [audio interrupted].
  unfold bind. rewrite (schedule_decoded _ _ _ _ _ Hd).
  cbn [when]. rewrite interrupt_spec. cbn.
  rewrite <- app_assoc. cbn. repeat split.
  unfold stopped. rewrite omap_app. cbn.
  apply elem_of_app. right.
  rewrite list_elem_of_omap. exists (Stop (objects s)). split; [|reflexivity].
  apply list_elem_of_fmap. exists (objects s). split; [reflexivity|].
  apply elem_of_elements, elem_of_union. left. now apply elem_of_singleton.
Qed.

(** The state [onmessage] leaves, by the branches it takes. *)
Lemma onmessage_exec (now : Q) (message : LiveServerMessage)
    (s : GdmLiveAudio) :
  exec (onmessage decodeAudioData now message) s =
  match audio message with
  | Some data =>
      let s1 := exec (schedule decodeAudioData now data) s in
      match decodeAudioData data with
      | Some _ => if interrupted message then exec interrupt s1 else s1
      | None => s1
      end
  | None => if interrupted message then exec interrupt s else s
  end.
Proof.
  unfold exec, onmessage, bind.
  destruct (audio message) as [data|]; cbn [ret].
  - destruct (decodeAudioData data) as [d|] eqn:Hd.
    + rewrite (schedule_decoded _ _ _ _ _ Hd).
      now destruct (interrupted message).
    + now rewrite (schedule_failed _ _ _ _ Hd).
  - now destruct (interrupted message).
Qed.

(** What both branches of [onmessage] keep, [onmessage] keeps. *)
Lemma onmessage_keeps (P : GdmLiveAudio -> Prop) :
  (forall s now data, P s -> P (exec (schedule decodeAudioData now data) s)) ->
  (forall s, P s -> P (exec interrupt s)) ->
  forall s now message,
    P s -> P (exec (onmessage decodeAudioData now message) s).
Proof.
  intros Hsched Hint s now message Hs. rewrite onmessage_exec.
  destruct (audio message) as [data|].
  - cbv zeta. destruct (decodeAudioData data); [|now apply Hsched].
    destruct (interrupted message); [apply Hint|]; now apply Hsched.
  - destruct (interrupted message); [now apply Hint | exact Hs].
Qed.

Lemma notPlayback_app (cs ds : list Call) :
  notPlayback (cs ++ ds) = notPlayback cs ++ notPlayback ds.
Proof. apply omap_app. Qed.

Lemma notPlayback_stops (l : list handle) : notPlayback (map Stop l) = [].
Proof. induction l as [|h l IH]; [reflexivity | exact IH]. Qed.

Lemma sparesCapture_refl (s : GdmLiveAudio) : sparesCapture s s.
Proof. unfold sparesCapture. repeat split. lia. Qed.

Lemma sparesCapture_trans (s1 s2 s3 : GdmLiveAudio) :
  sparesCapture s1 s2 -> sparesCapture s2 s3 -> sparesCapture s1 s3.
Proof.
  unfold sparesCapture.
  intros (A1 & A2 & A3 & A4 & A5) (B1 & B2 & B3 & B4 & B5).
  repeat split; try congruence. lia.
Qed.

Lemma schedule_sparesCapture (now : Q) (data : string) (s : GdmLiveAudio) :
  sparesCapture s (exec (schedule decodeAudioData now data) s).
Proof.
  unfold exec, sparesCapture, notPlayback.
  destruct (decodeAudioData data) as [d|] eqn:Hd.
  - rewrite (schedule_decoded _ _ _ _ _ Hd). destruct s. cbn.
    rewrite omap_app. cbn. rewrite app_nil_r. repeat split. lia.
  - rewrite (schedule_failed _ _ _ _ Hd). destruct s. cbn.
    repeat split. lia.
Qed.

Lemma interrupt_sparesCapture (s : GdmLiveAudio) :
  sparesCapture s (exec interrupt s).
Proof.
  unfold exec, sparesCapture. rewrite interrupt_spec. destruct s.
  cbn [snd capture sessionPromise status calls objects isRecording
       scriptProcessorNode sourceNode mediaStream].
  rewrite notPlayback_app, notPlayback_stops, app_nil_r. repeat split. lia.
Qed.

Lemma onmessage_sparesCapture (now : Q) (message : LiveServerMessage)
    (s : GdmLiveAudio) :
  sparesCapture s (exec (onmessage decodeAudioData now message) s).
Proof.
  apply (onmessage_keeps (sparesCapture s)).
  - intros s1 now1 data H. eapply sparesCapture_trans; [exact H|].
    apply schedule_sparesCapture.
  - intros s1 H. eapply sparesCapture_trans; [exact H|].
    apply interrupt_sparesCapture.
  - apply sparesCapture_refl.
Qed.

Lemma ended_sparesCapture (h : handle) (s : GdmLiveAudio) :
  sparesCapture s (exec (ended h) s).
Proof. destruct s. unfold sparesCapture. cbn. repeat split. lia. Qed.

(** Nothing a message of the session does touches the capture or the
    session: whatever [onmessage] receives, and whether it throws or not,
    the capture state, the session promise and the status are the same, and
    its only calls are starts and stops of sources. The end of a source
    does not either. *)
Theorem playback_spares_capture (s : GdmLiveAudio) (now : Q)
    (message : LiveServerMessage) (h : handle) :
  sparesCapture s (exec (onmessage decodeAudioData now message) s) /\
  sparesCapture s (exec (ended h) s).
Proof.
  split; [apply onmessage_sparesCapture | apply ended_sparesCapture].
Qed.

Lemma started_snoc_start (cs : list Call) (h : handle) (t : Q) :
  started (cs ++ [Start h t]) = started cs ++ [h] /\
  stopped (cs ++ [Start h t]) = stopped cs.
Proof.
  unfold started, stopped. rewrite !omap_app. cbn. now rewrite app_nil_r.
Qed.

Lemma started_app_stops (cs : list Call) (l : list handle) :
  started (cs ++ map Stop l) = started cs /\
  stopped (cs ++ map Stop l) = stopped cs ++ l.
Proof.
  unfold started, stopped. rewrite !omap_app.
  assert (H1 : omap (fun c => match c with Start h _ => Some h | _ => None end)
                 (map Stop l) = [])
    by (induction l; [reflexivity | assumption]).
  assert (H2 : omap (fun c => match c with Stop h => Some h | _ => None end)
                 (map Stop l) = l)
    by (induction l as [|h l IH]; [reflexivity | cbn; now rewrite IH]).
  now rewrite H1, H2, app_nil_r.
Qed.

Lemma schedule_inFlightSound (now : Q) (data : string) (s : GdmLiveAudio) :
  inFlightSound s -> inFlightSound (exec (schedule decodeAudioData now data) s).
Proof.
  intros [Hin Hcreated]. unfold exec.
  destruct (decodeAudioData data) as [d|] eqn:Hd.
  - rewrite (schedule_decoded _ _ _ _ _ Hd). unfold inFlightSound.
    cbn [snd sources objects calls]. cbv zeta.
    destruct (started_snoc_start (calls s) (objects s)
                (Qmax (nextStartTime s) now)) as [-> ->].
    split.
    + intros h Hh. apply elem_of_union in Hh as [Hh|Hh].
      * apply elem_of_singleton in Hh as ->.
        split; [lia|]. split; [apply elem_of_app; right; now left|].
        intros Hstop. specialize (Hcreated (objects s)).
        rewrite elem_of_app in Hcreated.
        specialize (Hcreated (or_intror Hstop)). lia.
      * destruct (Hin h Hh) as (H1 & H2 & H3).
        split; [lia|]. split; [apply elem_of_app; now left | exact H3].
    + intros h Hh. rewrite !elem_of_app in Hh.
      destruct Hh as [[Hh|Hh]|Hh].
      * specialize (Hcreated h). rewrite elem_of_app in Hcreated.
        specialize (Hcreated (or_introl Hh)). lia.
      * apply list_elem_of_singleton in Hh as ->. lia.
      * specialize (Hcreated h). rewrite elem_of_app in Hcreated.
        specialize (Hcreated (or_intror Hh)). lia.
  - rewrite (schedule_failed _ _ _ _ Hd). destruct s. split; assumption.
Qed.

Lemma interrupt_inFlightSound (s : GdmLiveAudio) :
  inFlightSound s -> inFlightSound (exec interrupt s).
Proof.
  intros [Hin Hcreated]. unfold exec. rewrite interrupt_spec.
  unfold inFlightSound. cbn [snd sources objects calls].
  destruct (started_app_stops (calls s) (elements (sources s))) as [-> ->].
  split; [intros h Hh; now apply not_elem_of_empty in Hh|].
  intros h Hh. rewrite !elem_of_app in Hh. destruct Hh as [Hh|[Hh|Hh]].
  - apply Hcreated, elem_of_app. now left.
  - apply Hcreated, elem_of_app. now right.
  - apply elem_of_elements in Hh. now apply Hin.
Qed.

Lemma ended_inFlightSound (h : handle) (s : GdmLiveAudio) :
  inFlightSound s -> inFlightSound (exec (ended h) s).
Proof.
  intros [Hin Hcreated]. destruct s. split; [|exact Hcreated].
  cbn in *. intros h' Hh'. apply Hin.
  now apply elem_of_difference in Hh' as [Hh' _].
Qed.

Lemma spared_inFlightSound (s s' : GdmLiveAudio) :
  sparesPlayback s s' -> inFlightSound s -> inFlightSound s'.
Proof.
  intros (Hsrc & _ & Hst & Hsp & Hobj) [Hin Hcreated].
  unfold inFlightSound. rewrite Hsrc, Hst, Hsp. split.
  - intros h Hh. destruct (Hin h Hh) as (H1 & H2 & H3).
    split; [lia|]. now split.
  - intros h Hh. specialize (Hcreated h Hh). lia.
Qed.

End Playback.

Lemma arrivals_noOverlap_witness :
  let dec := fun _ : string => Some (1 # 2) in
  let chunks := [(0, "a"%string); (3, "b"%string)] in
  let s := constructor 0 in
  Forall2 (fun a d => dec (snd a) = Some d) chunks [1 # 2; 1 # 2] /\
  exists ts,
    starts (calls (arrivals dec
                     (map (fun a => (fst a, chunk (snd a))) chunks) s)) =
      starts (calls s) ++ ts /\
    Datatypes.length ts = Datatypes.length chunks /\
    noOverlap (nextStartTime s) (zip (zip (map fst chunks) ts) [1 # 2; 1 # 2]).
Proof.
  intros dec chunks s.
  assert (H : Forall2 (fun a d => dec (snd a) = Some d) chunks [1 # 2; 1 # 2])
    by (repeat constructor).
  split; [exact H|].
  exact (arrivals_noOverlap dec chunks [1 # 2; 1 # 2] s H).
Defined.

Lemma cursor_never_decreases_witness :
  let dec := fun data : string =>
    if String.eqb data "bad" then None else Some (1 # 2) in
  let chunks := [(0, "a"%string); (7, "bad"%string); (2, "b"%string)] in
  let s := constructor 0 in
  (forall data d, dec data = Some d -> 0 <= d) /\
  nextStartTime s <=
  nextStartTime
    (arrivals dec (map (fun a => (fst a, chunk (snd a))) chunks) s).
Proof.
  intros dec chunks s.
  assert (H : forall data d, dec data = Some d -> 0 <= d).
  { intros data d. unfold dec. destruct (String.eqb data "bad").
    - discriminate.
    - intros [= <-]. discriminate. }
  split; [exact H|].
  exact (cursor_never_decreases dec chunks s H).
Defined.

Lemma chunk_after_interrupt_starts_now_witness :
  let dec := fun _ : string => Some (1 # 2) in
  let s := arrivals dec [(0, chunk "a")] (constructor 0) in
  (0 <= 9 /\ dec "b"%string = Some (1 # 2)) /\
  let flushed := exec interrupt s in
  let s' := exec (onmessage dec 9 (chunk "b")) flushed in
  exists t,
    calls s' = calls flushed ++ [Start (objects s) t] /\
    t == 9 /\ nextStartTime s' == 9 + (1 # 2) /\ sources s' = {[objects s]}.
Proof.
  intros dec s.
  assert (H1 : 0 <= 9) by discriminate.
  assert (H2 : dec "b"%string = Some (1 # 2)) by reflexivity.
  split; [now split|].
  exact (chunk_after_interrupt_starts_now dec s 9 "b" (1 # 2) H1 H2).
Defined.

Lemma chunk_with_interrupt_is_flushed_witness :
  let dec := fun _ : string => Some (1 # 2) in
  let s := arrivals dec [(0, chunk "a")] (constructor 0) in
  dec "b"%string = Some (1 # 2) /\
  let message := {| audio := Some "b"%string; interrupted := true |} in
  let s' := exec (onmessage dec 9 message) s in
  outcome (onmessage dec 9 message) s = Returns tt /\
  calls s' =
    calls s ++ Start (objects s) (Qmax (nextStartTime s) 9)
      :: map Stop (elements ({[objects s]} ∪ sources s)) /\
  objects s ∈ stopped (calls s') /\
  sources s' = ∅ /\ nextStartTime s' = 0.
Proof.
  intros dec s.
  assert (H : dec "b"%string = Some (1 # 2)) by reflexivity.
  split; [exact H|].
  exact (chunk_with_interrupt_is_flushed dec s 9 "b" (1 # 2) H).
Defined.

End PlaybackFacts.

(* ===================================================================== *)
(** ** More on capture *)
(* ===================================================================== *)

Module CaptureFacts.

Import Component Notions ComponentFacts.
Local Open Scope method_scope.


(** A start that meets no error, then a stop: the processor and the
    source are disconnected, in this order, and the tracks of the stream
    just acquired are stopped; the capture is as before the start. *)
Theorem start_then_stop_releases (s : GdmLiveAudio) :
  isRecording s = false ->
  let recording := exec (startRecording None) s in
  let back := exec stopRecording recording in
  exists m n p,
    capture recording = (true, Some p, Some n, Some m) /\
    acquired (calls recording) = acquired (calls s) ++ [m] /\
    calls back =
      calls recording ++ [Disconnect p; Disconnect n; TrackStop m] /\
    capture back = (false, None, None, None).
Proof.
  intros Hs.
  by_fields s; try discriminate Hs; cbn; do 3 eexists;
    (split; [reflexivity|]); unfold acquired; rewrite ?omap_app; cbn;
    rewrite <- ?app_assoc; cbn; rewrite ?app_nil_r; repeat split.
Qed.

Lemma startRecording_sparesPlayback (browser : Browser) (s : GdmLiveAudio) :
  sparesPlayback s (exec (startRecording browser) s).
Proof.
  unfold sparesPlayback, started, stopped.
  by_fields s; destruct browser as [[[] message]|]; cbn;
    rewrite ?omap_app; cbn; rewrite ?app_nil_r; repeat split; lia.
Qed.

Lemma stopRecording_sparesPlayback (s : GdmLiveAudio) :
  sparesPlayback s (exec stopRecording s).
Proof.
  unfold sparesPlayback, started, stopped.
  by_fields s; cbn; rewrite ?omap_app; cbn; rewrite ?app_nil_r;
    repeat split; lia.
Qed.

Lemma reset_sparesPlayback (s : GdmLiveAudio) :
  sparesPlayback s (exec reset s).
Proof.
  unfold sparesPlayback, started, stopped.
  by_fields s; cbn; rewrite ?omap_app; cbn; rewrite ?app_nil_r;
    repeat split; lia.
Qed.

Lemma onaudioprocess_sparesPlayback (pcm : list Q) (s : GdmLiveAudio) :
  sparesPlayback s (exec (onaudioprocess pcm) s).
Proof.
  unfold sparesPlayback, started, stopped.
  by_fields s; cbn; rewrite ?omap_app; cbn; rewrite ?app_nil_r;
    repeat split; lia.
Qed.

(** Nothing the capture chain does touches playback: [startRecording],
    whatever the browser answers, [stopRecording], [reset] and
    [onaudioprocess] leave the cursor and the in-flight set as they are and
    start or stop no source. Audio already scheduled plays on. *)
Theorem capture_spares_playback (s : GdmLiveAudio) (browser : Browser)
    (pcm : list Q) :
  sparesPlayback s (exec (startRecording browser) s) /\
  sparesPlayback s (exec stopRecording s) /\
  sparesPlayback s (exec reset s) /\
  sparesPlayback s (exec (onaudioprocess pcm) s).
Proof.
  split; [apply startRecording_sparesPlayback|].
  split; [apply stopRecording_sparesPlayback|].
  split; [apply reset_sparesPlayback|].
  apply onaudioprocess_sparesPlayback.
Qed.

(** [reset] stops the capture and lets go of the session, asking for it
    to be closed exactly when there is one; run again, it changes
    nothing. *)
Theorem reset_closes_session_once (s : GdmLiveAudio) :
  let r := exec reset s in
  outcome reset s = Returns tt /\
  capture r = (false, None, None, None) /\
  sessionPromise r = None /\
  closed (calls r) =
    closed (calls s) ++
    match sessionPromise s with Some q => [q] | None => [] end /\
  exec reset r = r.
Proof.
  unfold closed.
  by_fields s; cbn; rewrite ?omap_app; cbn; rewrite ?app_nil_r;
    repeat split.
Qed.

(** Goals that a stream acquired is released or held, over logs with an
    explicit end. *)
Ltac leak :=
  let x := fresh "x" in
  let Hx := fresh "Hx" in
  intros x Hx; unfold acquired, released in *;
  rewrite ?omap_app in *; cbn in *; rewrite ?app_nil_r in *;
  rewrite ?elem_of_app, ?list_elem_of_singleton in *;
  repeat match goal with
    | H : _ \/ _ |- _ => destruct H
    | H : forall m, _ -> _ \/ _, Hm : _ ∈ _ |- _ =>
        destruct (H _ Hm); clear H
    | H : None = Some _ |- _ => discriminate H
    | H : Some _ = Some _ |- _ => injection H as ->
    | H : _ ∈ [] |- _ => apply elem_of_nil in H; destruct H
    end;
  subst; auto 6.

Lemma startRecording_captureSound (browser : Browser) (s : GdmLiveAudio) :
  captureConsistent s -> noLeak s ->
  captureConsistent (exec (startRecording browser) s) /\
  noLeak (exec (startRecording browser) s).
Proof.
  unfold captureConsistent, noLeak.
  by_fields s; cbn; intros Hc Hl; try discriminate Hc;
    try (destruct Hc as (? & ? & ?); discriminate);
    (destruct browser as [[[] message]|]; cbn; (split; [now auto|]); leak).
Qed.

Lemma stopRecording_captureSound (s : GdmLiveAudio) :
  captureConsistent s -> noLeak s ->
  captureConsistent (exec stopRecording s) /\ noLeak (exec stopRecording s).
Proof.
  unfold captureConsistent, noLeak.
  by_fields s; cbn; intros Hc Hl; try discriminate Hc;
    try (destruct Hc as (? & ? & ?); discriminate);
    (split; [now auto|]); leak.
Qed.

Lemma reset_captureSound (s : GdmLiveAudio) :
  captureConsistent s -> noLeak s ->
  captureConsistent (exec reset s) /\ noLeak (exec reset s).
Proof.
  unfold captureConsistent, noLeak.
  by_fields s; cbn; intros Hc Hl; try discriminate Hc;
    try (destruct Hc as (? & ? & ?); discriminate);
    (split; [now auto|]); leak.
Qed.

Lemma onaudioprocess_captureSound (pcm : list Q) (s : GdmLiveAudio) :
  captureConsistent s -> noLeak s ->
  captureConsistent (exec (onaudioprocess pcm) s) /\
  noLeak (exec (onaudioprocess pcm) s).
Proof.
  unfold captureConsistent, noLeak.
  by_fields s; cbn; intros Hc Hl; try discriminate Hc;
    try (destruct Hc as (? & ? & ?); discriminate);
    (split; [now auto|]); leak.
Qed.

Lemma updateStatus_captureSound (msg : string) (s : GdmLiveAudio) :
  captureConsistent s -> noLeak s ->
  captureConsistent (exec (updateStatus msg) s) /\
  noLeak (exec (updateStatus msg) s).
Proof. destruct s. auto. Qed.

Lemma acquired_notPlayback (cs : list Call) :
  acquired (notPlayback cs) = acquired cs /\
  released (notPlayback cs) = released cs.
Proof.
  unfold acquired, released, notPlayback.
  induction cs as [|c cs [IH1 IH2]]; [now split|].
  destruct c; cbn; rewrite ?IH1, ?IH2; now split.
Qed.

Lemma spared_captureSound (s s' : GdmLiveAudio) :
  sparesCapture s s' ->
  captureConsistent s -> noLeak s ->
  captureConsistent s' /\ noLeak s'.
Proof.
  intros (Hcap & Hses & _ & Hcalls & _) Hc Hl.
  unfold capture in Hcap. injection Hcap as Hrec Hp Hn Hm.
  split.
  - unfold captureConsistent in *. now rewrite Hrec, Hp, Hn, Hm, Hses.
  - unfold noLeak in *. rewrite Hm.
    destruct (acquired_notPlayback (calls s)) as [A1 R1].
    destruct (acquired_notPlayback (calls s')) as [A2 R2].
    now rewrite <- A2, <- R2, Hcalls, A1, R1.
Qed.

(** *** The two halves of [startRecording] *)

(** [startRecording] is its first half followed, when that one awaits
    [getUserMedia], by its second half. *)
Lemma startRecording_halves (browser : Browser) (s : GdmLiveAudio) :
  startRecording browser s =
  (awaits <- Page.startRecordingBegin ;;
   if awaits then Page.startRecordingResume browser else ret tt) s.
Proof.
  by_fields s; destruct browser as [[[] message]|]; reflexivity.
Qed.

Lemma startRecordingBegin_sparesPlayback (s : GdmLiveAudio) :
  sparesPlayback s (exec Page.startRecordingBegin s).
Proof.
  unfold sparesPlayback, started, stopped.
  by_fields s; cbn; rewrite ?omap_app; cbn; rewrite ?app_nil_r;
    repeat split; lia.
Qed.

Lemma startRecordingResume_sparesPlayback (browser : Browser)
    (s : GdmLiveAudio) :
  sparesPlayback s (exec (Page.startRecordingResume browser) s).
Proof.
  unfold sparesPlayback, started, stopped.
  by_fields s; destruct browser as [[[] message]|]; cbn;
    rewrite ?omap_app; cbn; rewrite ?app_nil_r; repeat split; lia.
Qed.

Lemma startRecordingResume_session (browser : Browser) (s : GdmLiveAudio) :
  sessionPromise (exec (Page.startRecordingResume browser) s) =
  sessionPromise s.
Proof.
  by_fields s; destruct browser as [[[] message]|]; reflexivity.
Qed.

(** Each method, and each half of [startRecording], keeps the recording
    flag and the capture graph in agreement. *)
Lemma methods_graphConsistent (s : GdmLiveAudio) (browser : Browser)
    (pcm : list Q) (msg : string) :
  graphConsistent s ->
  graphConsistent (exec (startRecording browser) s) /\
  graphConsistent (exec Page.startRecordingBegin s) /\
  graphConsistent (exec (Page.startRecordingResume browser) s) /\
  graphConsistent (exec stopRecording s) /\
  graphConsistent (exec reset s) /\
  graphConsistent (exec (onaudioprocess pcm) s) /\
  graphConsistent (exec (updateStatus msg) s).
Proof.
  unfold graphConsistent.
  by_fields s; cbn; intros Hc; try discriminate Hc;
    try (destruct Hc as (? & ? & ?); discriminate);
    destruct browser as [[[] message]|]; cbn; repeat split; auto.
Qed.

Lemma spared_graphConsistent (s s' : GdmLiveAudio) :
  sparesCapture s s' -> graphConsistent s -> graphConsistent s'.
Proof.
  intros (Hcap & _) Hc. unfold capture in Hcap.
  injection Hcap as Hrec Hp Hn Hm.
  unfold graphConsistent in *. now rewrite Hrec, Hp, Hn, Hm.
Qed.


Lemma start_then_stop_releases_witness :
  let s := constructor 0 in
  isRecording s = false /\
  let recording := exec (startRecording None) s in
  let back := exec stopRecording recording in
  exists m n p,
    capture recording = (true, Some p, Some n, Some m) /\
    acquired (calls recording) = acquired (calls s) ++ [m] /\
    calls back =
      calls recording ++ [Disconnect p; Disconnect n; TrackStop m] /\
    capture back = (false, None, None, None).
Proof.
  intros s.
  assert (H : isRecording s = false) by reflexivity.
  split; [exact H|].
  exact (start_then_stop_releases s H).
Defined.

End CaptureFacts.

(* ===================================================================== *)
(** ** The page *)
(* ===================================================================== *)

Module PageFacts.

Import Component Notions ComponentFacts PlaybackFacts CaptureFacts.
Local Open Scope method_scope.

(** *** [trim] *)

Lemma trimStart_idem (s : Page.jsString) :
  Page.trimStart (Page.trimStart s) = Page.trimStart s.
Proof.
  induction s as [|c s IH]; [reflexivity|]. cbn.
  destruct (Page.isWhiteSpace c) eqn:E; [exact IH|]. cbn. now rewrite E.
Qed.

(** A string that ends with a code unit that is not white space keeps it
    as its end when its start is trimmed. *)
Lemma trimStart_keeps_end (s : Page.jsString) (c : N) :
  Page.isWhiteSpace c = false ->
  exists s', Page.trimStart (s ++ [c]) = s' ++ [c].
Proof.
  intros Hc. induction s as [|a s [s' IH]]; cbn.
  - rewrite Hc. now exists [].
  - destruct (Page.isWhiteSpace a); [now exists s'|]. now exists (a :: s).
Qed.

Lemma trimEnd_idem (s : Page.jsString) :
  Page.trimEnd (Page.trimEnd s) = Page.trimEnd s.
Proof. unfold Page.trimEnd. now rewrite rev_involutive, trimStart_idem. Qed.

(** A trimmed start stays trimmed when the end is trimmed. *)
Lemma trimStart_trimEnd (s : Page.jsString) :
  Page.trimStart s = s ->
  Page.trimStart (Page.trimEnd s) = Page.trimEnd s.
Proof.
  destruct s as [|c s]; [reflexivity|]. cbn.
  destruct (Page.isWhiteSpace c) eqn:Hc.
  - intros H. exfalso.
    assert (Hlen : forall t, Datatypes.length (Page.trimStart t)
                             <= Datatypes.length t).
    { induction t as [|a t IHt]; cbn; [lia|].
      destruct (Page.isWhiteSpace a); cbn; lia. }
    specialize (Hlen s). rewrite H in Hlen. cbn in Hlen. lia.
  - intros _. unfold Page.trimEnd. cbn [rev].
    destruct (trimStart_keeps_end (rev s) c Hc) as [s' ->].
    rewrite rev_app_distr. cbn. now rewrite Hc.
Qed.

Lemma trim_idem (s : Page.jsString) : Page.trim (Page.trim s) = Page.trim s.
Proof.
  unfold Page.trim.
  rewrite (trimStart_trimEnd _ (trimStart_idem s)). apply trimEnd_idem.
Qed.

Lemma trim_nonEmpty (s : Page.jsString) :
  Page.nonEmpty s = true -> s <> [].
Proof. now destruct s. Qed.

Lemma turnEntries_tidy (input output : Page.jsString) :
  Forall tidy (turnEntries input output).
Proof.
  unfold turnEntries. apply Forall_app. split.
  - destruct (Page.nonEmpty (Page.trim input)) eqn:E; constructor;
      [|constructor].
    split; [now left|]. split; [now apply trim_nonEmpty | apply trim_idem].
  - destruct (Page.nonEmpty (Page.trim output)) eqn:E; constructor;
      [|constructor].
    split; [now right|]. split; [now apply trim_nonEmpty | apply trim_idem].
Qed.

(** *** Transcripts *)

Local Arguments Page.trim : simpl never.

Lemma appendText_fragment (acc : Page.jsString) (t : option Page.jsString) :
  Page.appendText acc t = acc ++ fragment (Some t).
Proof. now destruct t. Qed.

(** What [transcribe] does to the transcript state. *)
Lemma transcribe_spec (message : Page.ServerContent) (p : Page.Page) :
  let input :=
    Page.currentInputText p ++ fragment (Page.inputTranscription message) in
  let output :=
    Page.currentOutputText p ++ fragment (Page.outputTranscription message) in
  Page.component (Page.transcribe message p) = Page.component p /\
  Page.error (Page.transcribe message p) = Page.error p /\
  Page.selectedLanguage (Page.transcribe message p) = Page.selectedLanguage p /\
  Page.instructions (Page.transcribe message p) = Page.instructions p /\
  transcripts (Page.transcribe message p) =
    if Page.turnComplete message
    then (Page.transcriptionLog p ++ turnEntries input output, [], [])
    else (Page.transcriptionLog p, input, output).
Proof.
  destruct p as [c e l log i o ins].
  destruct message as [sig [ti|] [to|] []]; cbn;
    rewrite ?appendText_fragment, ?app_nil_r; unfold turnEntries; cbn;
    repeat split;
    repeat match goal with
      | |- context [Page.nonEmpty ?x] => destruct (Page.nonEmpty x)
      end; cbn; rewrite <- ?app_assoc, ?app_nil_r; reflexivity.
Qed.

(** The texts of a turn: the fragments of a sequence of messages, in
    order, after what was accumulated. *)
Lemma transcribe_accumulates (ms : list Page.ServerContent) (p : Page.Page) :
  Forall (fun m => Page.turnComplete m = false) ms ->
  transcripts (foldl (fun p m => Page.transcribe m p) p ms) =
  (Page.transcriptionLog p,
   Page.currentInputText p
     ++ concat (map (fun m => fragment (Page.inputTranscription m)) ms),
   Page.currentOutputText p
     ++ concat (map (fun m => fragment (Page.outputTranscription m)) ms)).
Proof.
  intros Hms. revert p.
  induction Hms as [|m ms Hm _ IH]; intros p; cbn.
  - now rewrite !app_nil_r.
  - rewrite IH.
    destruct (transcribe_spec m p) as (_ & _ & _ & _ & Ht).
    rewrite Hm in Ht. unfold transcripts in Ht. injection Ht as -> -> ->.
    now rewrite <- !app_assoc.
Qed.

(** *** Handlers on the page *)

Lemma lift_spec {A} (m : M A) (p : Page.Page) :
  Page.lift m p =
  (outcome m (Page.component p),
   Page.set_component (exec m (Page.component p)) p).
Proof.
  unfold Page.lift, outcome, exec. now destruct (m (Page.component p)).
Qed.

Lemma set_component_spec (s : GdmLiveAudio) (p : Page.Page) :
  Page.component (Page.set_component s p) = s /\
  Page.error (Page.set_component s p) = Page.error p /\
  Page.selectedLanguage (Page.set_component s p) = Page.selectedLanguage p /\
  Page.instructions (Page.set_component s p) = Page.instructions p /\
  transcripts (Page.set_component s p) = transcripts p.
Proof. now destruct p. Qed.

Section Handlers.

Variable decodeAudioData : string -> option Q.

(** What the full [onmessage] does, in terms of the handler of
    [Component] and of [transcribe]. *)
Lemma page_onmessage_spec (now : Q) (message : Page.ServerContent)
    (p : Page.Page) :
  let p' := snd (Page.onmessage decodeAudioData now message p) in
  let handler :=
    Component.onmessage decodeAudioData now (Page.signal message) in
  fst (Page.onmessage decodeAudioData now message p) =
    outcome handler (Page.component p) /\
  Page.component p' = exec handler (Page.component p) /\
  transcripts p' =
    match outcome handler (Page.component p) with
    | Returns _ => transcripts (Page.transcribe message p)
    | Throws _ => transcripts p
    end.
Proof.
  cbv zeta. unfold Page.onmessage, Component.onmessage, outcome, exec, bind.
  rewrite lift_spec. unfold outcome, exec.
  destruct (match audio (Page.signal message) with
            | Some data => schedule decodeAudioData now data
            | None => ret ()
            end (Page.component p)) as [[[]|e] s1] eqn:E; cbn [fst snd].
  - rewrite lift_spec. cbn [fst snd].
    destruct (transcribe_spec message (Page.set_component s1 p))
      as (Hc & _ & _ & _ & Ht).
    destruct (set_component_spec s1 p) as (Hc1 & _ & _ & _ & Ht1).
    rewrite Hc, Hc1.
    destruct (set_component_spec
                (exec (when (interrupted (Page.signal message)) interrupt) s1)
                (Page.transcribe message (Page.set_component s1 p)))
      as (Hc2 & _ & _ & _ & Ht2).
    rewrite Hc2, Ht2.
    assert (Hnothrow : outcome (when (interrupted (Page.signal message))
                                  interrupt) s1 = Returns tt).
    { destruct (interrupted (Page.signal message)); [|reflexivity].
      unfold outcome. cbn [when]. now rewrite interrupt_spec. }
    unfold outcome, exec in *. rewrite Hnothrow.
    split; [reflexivity|]. split; [reflexivity|].
    rewrite Ht.
    destruct (transcribe_spec message p) as (_ & _ & _ & _ & Ht').
    rewrite Ht'. now destruct p.
  - destruct (set_component_spec s1 p) as (Hc1 & _ & _ & _ & Ht1).
    now rewrite Hc1, Ht1.
Qed.


(** The handler returns exactly when the audio branch does. *)
Lemma onmessage_outcome (now : Q) (message : Page.ServerContent)
    (s : GdmLiveAudio) :
  outcome (Component.onmessage decodeAudioData now (Page.signal message)) s =
  if audioReturns decodeAudioData message
  then Returns tt else Throws "DecodeError".
Proof.
  unfold outcome, Component.onmessage, audioReturns, bind.
  destruct (audio (Page.signal message)) as [data|]; cbn [ret].
  - destruct (decodeAudioData data) as [d|] eqn:Hd; cbn [truthy].
    + rewrite (schedule_decoded _ _ _ _ _ Hd).
      destruct (interrupted (Page.signal message)); cbn [when ret fst];
        [now rewrite interrupt_spec | reflexivity].
    + now rewrite (schedule_failed _ _ _ _ Hd).
  - destruct (interrupted (Page.signal message)); cbn [when ret fst];
      [now rewrite interrupt_spec | reflexivity].
Qed.

Lemma transcribe_transcripts (message : Page.ServerContent)
    (p q : Page.Page) :
  transcripts p = transcripts q ->
  transcripts (Page.transcribe message p) =
  transcripts (Page.transcribe message q).
Proof.
  intros H.
  destruct (transcribe_spec message p) as (_ & _ & _ & _ & ->).
  destruct (transcribe_spec message q) as (_ & _ & _ & _ & ->).
  unfold transcripts in H. now injection H as -> -> ->.
Qed.

(** The transcripts after a run of messages are those of the messages
    whose audio branch returned, read in order; the others leave none. *)
Lemma run_messages_transcripts (ms : list (Q * Page.ServerContent))
    (p q : Page.Page) :
  transcripts p = transcripts q ->
  transcripts (Page.run decodeAudioData (messageEvents ms) p) =
  transcripts
    (foldl (fun p m => Page.transcribe m p) q
       (map snd (taken decodeAudioData ms))).
Proof.
  revert p q. induction ms as [|[now m] ms IH]; intros p q Hpq;
    [exact Hpq|].
  cbn [messageEvents map Page.run Page.handle_event fst snd taken List.filter].
  fold (messageEvents ms). fold (taken decodeAudioData ms).
  destruct (page_onmessage_spec now m p) as (_ & _ & Ht).
  rewrite onmessage_outcome in Ht.
  destruct (audioReturns decodeAudioData m).
  - cbn [map foldl snd]. apply IH. rewrite Ht.
    now apply transcribe_transcripts.
  - apply IH. now rewrite Ht.
Qed.

(** A turn is logged whole: after messages that bring fragments of
    transcription and one that completes the turn, each handled by
    [onmessage] at its arrival, the log has gained the trimmed text of the
    user, then that of the model, each only if it is not empty, and both
    accumulators are empty. The texts are those of the messages whose
    audio branch returned: a message whose audio fails to decode leaves
    its fragments out. A transcription without [text] counts as the text
    "undefined". *)
Theorem run_logs_turn (ms : list (Q * Page.ServerContent)) (now : Q)
    (final : Page.ServerContent) (p : Page.Page) :
  Forall (fun a => Page.turnComplete (snd a) = false)
    (taken decodeAudioData ms) ->
  Page.turnComplete final = true ->
  audioReturns decodeAudioData final = true ->
  let turn := map snd (taken decodeAudioData ms) ++ [final] in
  let input :=
    Page.currentInputText p
      ++ concat (map (fun m => fragment (Page.inputTranscription m)) turn) in
  let output :=
    Page.currentOutputText p
      ++ concat (map (fun m => fragment (Page.outputTranscription m)) turn) in
  transcripts
    (Page.run decodeAudioData (messageEvents (ms ++ [(now, final)])) p) =
    (Page.transcriptionLog p ++ turnEntries input output, [], []) /\
  fragment (Some None) = Page.ofAscii "undefined".
Proof.
  intros Hms Hfinal Hreturns. cbv zeta. split; [|reflexivity].
  rewrite (run_messages_transcripts _ p p eq_refl).
  unfold taken. rewrite List.filter_app. cbn [List.filter snd].
  rewrite Hreturns. fold (taken decodeAudioData ms).
  rewrite map_app, foldl_app. cbn [map foldl snd].
  assert (Hfalse : Forall (fun m => Page.turnComplete m = false)
                     (map snd (taken decodeAudioData ms))).
  { apply Forall_fmap. exact Hms. }
  pose proof (transcribe_accumulates _ p Hfalse) as Hacc.
  set (q := foldl (fun p m => Page.transcribe m p) p _) in *.
  destruct (transcribe_spec final q) as (_ & _ & _ & _ & Ht).
  rewrite Hfinal in Ht. rewrite Ht.
  unfold transcripts in Hacc. injection Hacc as -> -> ->.
  rewrite !map_app, !concat_app. cbn. now rewrite !app_nil_r, <- !app_assoc.
Qed.

(** The full [onmessage] handles the audio and the interruption exactly as
    the handler of [Component] does, whatever the transcripts: same
    outcome, same state of the audio path. The transcripts of the message
    are taken in when the audio branch returns, and are lost, with the
    end of the turn, when it throws. *)
Theorem page_onmessage_agrees (now : Q) (message : Page.ServerContent)
    (p : Page.Page) :
  let p' := snd (Page.onmessage decodeAudioData now message p) in
  let handler :=
    Component.onmessage decodeAudioData now (Page.signal message) in
  fst (Page.onmessage decodeAudioData now message p) =
    outcome handler (Page.component p) /\
  Page.component p' = exec handler (Page.component p) /\
  transcripts p' =
    match outcome handler (Page.component p) with
    | Returns _ => transcripts (Page.transcribe message p)
    | Throws _ => transcripts p
    end.
Proof. apply page_onmessage_spec. Qed.

Lemma page_startRecording_component (browser : Browser) (p : Page.Page) :
  Page.component (snd (Page.startRecording browser p)) =
  exec (startRecording browser) (Page.component p).
Proof.
  unfold Page.startRecording. cbv zeta. rewrite lift_spec. cbn [snd].
  destruct (negb (isRecording (Page.component p))
            && negb (truthy (sessionPromise (Page.component p))));
    destruct p; reflexivity.
Qed.

Lemma ignore_snd {A} (h : Page.Page -> result A * Page.Page)
    (p : Page.Page) :
  snd (Page.ignore h p) = snd (h p).
Proof. unfold Page.ignore. now destruct (h p) as [[a|e] p']. Qed.

Lemma page_startClicked_component (p : Page.Page) :
  Page.component (snd (Page.startClicked p)) =
  exec Page.startRecordingBegin (Page.component p).
Proof.
  unfold Page.startClicked. cbv zeta. rewrite lift_spec. cbn [snd].
  destruct (negb (isRecording (Page.component p))
            && negb (truthy (sessionPromise (Page.component p))));
    destruct p; reflexivity.
Qed.

Lemma page_reset_component (p : Page.Page) :
  Page.component (snd (Page.reset p)) = exec reset (Page.component p).
Proof.
  destruct p as [c e l log i o ins]. by_fields c; reflexivity.
Qed.

(** What every method keeps of the audio path, every event keeps. With
    [apart] the halves of [startRecording] count among the methods;
    without it, the events are the settled ones. *)
Lemma handle_event_keeps (P : GdmLiveAudio -> Prop) (apart : bool) :
  (forall b s, P s -> P (exec (startRecording b) s)) ->
  (forall s, P s -> P (exec stopRecording s)) ->
  (forall s, P s -> P (exec reset s)) ->
  (forall now m s, P s -> P (exec (onmessage decodeAudioData now m) s)) ->
  (forall pcm s, P s -> P (exec (onaudioprocess pcm) s)) ->
  (forall h s, P s -> P (exec (ended h) s)) ->
  (forall msg s, P s -> P (exec (updateStatus msg) s)) ->
  (apart = true -> forall s, P s -> P (exec Page.startRecordingBegin s)) ->
  (apart = true ->
   forall b s, P s -> P (exec (Page.startRecordingResume b) s)) ->
  forall e p,
    (apart = false -> settled e = true) ->
    P (Page.component p) ->
    P (Page.component (snd (Page.handle_event decodeAudioData e p))).
Proof.
  intros Hstart Hstop Hreset Hmsg Hblock Hended Hstatus Hbegin Hresume
    e p He Hp.
  destruct e as [b| | |value|now m|pcm|h| | |msg| |b];
    cbn [Page.handle_event].
  - rewrite page_startRecording_component. now apply Hstart.
  - unfold Page.stopRecording. rewrite lift_spec. cbn [snd].
    rewrite (proj1 (set_component_spec _ _)). now apply Hstop.
  - rewrite page_reset_component. now apply Hreset.
  - unfold Page.handleLanguageChange. rewrite page_reset_component.
    apply Hreset. now destruct p.
  - destruct (page_onmessage_spec now m p) as (_ & -> & _). now apply Hmsg.
  - rewrite lift_spec. cbn [snd].
    rewrite (proj1 (set_component_spec _ _)). now apply Hblock.
  - rewrite lift_spec. cbn [snd].
    rewrite (proj1 (set_component_spec _ _)). now apply Hended.
  - unfold Page.onopen. rewrite lift_spec. cbn [snd].
    rewrite (proj1 (set_component_spec _ _)). now apply Hstatus.
  - unfold Page.onclose. rewrite lift_spec. cbn [snd].
    rewrite (proj1 (set_component_spec _ _)). now apply Hstatus.
  - unfold Page.onerror, Page.updateError. cbn [snd]. now destruct p.
  - destruct apart; [|now specialize (He eq_refl)].
    rewrite ignore_snd, page_startClicked_component. now apply Hbegin.
  - destruct apart; [|now specialize (He eq_refl)].
    unfold Page.microphoneAnswered. rewrite lift_spec. cbn [snd].
    rewrite (proj1 (set_component_spec _ _)). now apply Hresume.
Qed.

Lemma run_keeps (P : GdmLiveAudio -> Prop) (apart : bool) :
  (forall e p,
     (apart = false -> settled e = true) ->
     P (Page.component p) ->
     P (Page.component (snd (Page.handle_event decodeAudioData e p)))) ->
  forall es p,
    (apart = false -> forallb settled es = true) ->
    P (Page.component p) ->
    P (Page.component (Page.run decodeAudioData es p)).
Proof.
  intros Hstep es. induction es as [|e es IH]; intros p Hes Hp; [exact Hp|].
  cbn [Page.run]. apply IH.
  - intros Ha. specialize (Hes Ha). cbn in Hes.
    now apply andb_prop in Hes as [_ Hes].
  - apply Hstep; [|exact Hp].
    intros Ha. specialize (Hes Ha). cbn in Hes.
    now apply andb_prop in Hes as [He _].
Qed.

(** In every state the page reaches, the in-flight set is sound: each of
    its sources has been started and not stopped, so that the [stop] of an
    interruption never meets a source that was not started, and no source
    is started or stopped before it is created. *)
Theorem reachable_inFlightSound (es : list Page.Event) (now : Q) :
  inFlightSound
    (Page.component (Page.run decodeAudioData es (Page.created now))).
Proof.
  apply (run_keeps inFlightSound true); [|discriminate|].
  - apply handle_event_keeps.
    + intros b s. apply spared_inFlightSound, startRecording_sparesPlayback.
    + intros s. apply spared_inFlightSound, stopRecording_sparesPlayback.
    + intros s. apply spared_inFlightSound, reset_sparesPlayback.
    + intros t m s. apply (onmessage_keeps decodeAudioData inFlightSound).
      * intros s1 t1 data. apply schedule_inFlightSound.
      * apply interrupt_inFlightSound.
    + intros pcm s.
      apply spared_inFlightSound, onaudioprocess_sparesPlayback.
    + apply ended_inFlightSound.
    + intros msg [] H. exact H.
    + intros _ s.
      apply spared_inFlightSound, startRecordingBegin_sparesPlayback.
    + intros _ b s.
      apply spared_inFlightSound, startRecordingResume_sparesPlayback.
  - split; cbn; intros h Hh; [now apply not_elem_of_empty in Hh|].
    now apply elem_of_nil in Hh.
Qed.

(** In every state the page reaches, also when other events come while
    [getUserMedia] is pending, the recording flag agrees with the capture
    graph: while recording the stream and both nodes are there, and
    otherwise they are cleared. *)
Theorem reachable_graph_consistent (es : list Page.Event) (now : Q) :
  graphConsistent
    (Page.component (Page.run decodeAudioData es (Page.created now))).
Proof.
  apply (run_keeps graphConsistent true); [|discriminate|].
  - apply handle_event_keeps.
    + intros b s H. now apply (methods_graphConsistent s b [] "").
    + intros s H. now apply (methods_graphConsistent s None [] "").
    + intros s H. now apply (methods_graphConsistent s None [] "").
    + intros t m s H. apply (spared_graphConsistent s); [|exact H].
      apply (onmessage_sparesCapture decodeAudioData).
    + intros pcm s H. now apply (methods_graphConsistent s None pcm "").
    + intros h s H. apply (spared_graphConsistent s); [|exact H].
      apply ended_sparesCapture.
    + intros msg s H. now apply (methods_graphConsistent s None [] msg).
    + intros _ s H. now apply (methods_graphConsistent s None [] "").
    + intros _ b s H. now apply (methods_graphConsistent s b [] "").
  - now repeat split.
Qed.

(** The invariants of runs in which every answer of [getUserMedia] comes
    before anything else happens. *)
Lemma settled_captureSound (es : list Page.Event) (now : Q) :
  forallb settled es = true ->
  let s := Page.component (Page.run decodeAudioData es (Page.created now)) in
  captureConsistent s /\ noLeak s.
Proof.
  intros Hes.
  apply (run_keeps (fun s => captureConsistent s /\ noLeak s) false).
  - apply (handle_event_keeps (fun s => captureConsistent s /\ noLeak s)).
    + intros b s [H1 H2]. now apply startRecording_captureSound.
    + intros s [H1 H2]. now apply stopRecording_captureSound.
    + intros s [H1 H2]. now apply reset_captureSound.
    + intros t m s [H1 H2].
      apply (spared_captureSound s); [|exact H1|exact H2].
      apply (onmessage_sparesCapture decodeAudioData).
    + intros pcm s [H1 H2]. now apply onaudioprocess_captureSound.
    + intros h s [H1 H2].
      apply (spared_captureSound s); [|exact H1|exact H2].
      apply ended_sparesCapture.
    + intros msg s [H1 H2]. now apply updateStatus_captureSound.
    + discriminate.
    + discriminate.
  - intros _. exact Hes.
  - split; [now repeat split|]. intros m Hm. now apply elem_of_nil in Hm.
Qed.

(** In a run in which every answer of [getUserMedia] comes before anything
    else happens, the session is there while the component records, so
    [onaudioprocess] never throws. *)
Theorem settled_runs_keep_session (es : list Page.Event) (now : Q)
    (pcm : list Q) :
  forallb settled es = true ->
  let s := Page.component (Page.run decodeAudioData es (Page.created now)) in
  captureConsistent s /\ outcome (onaudioprocess pcm) s = Returns tt.
Proof.
  intros Hes. cbv zeta. destruct (settled_captureSound es now Hes) as [Hc _].
  split; [exact Hc|]. revert Hc. unfold captureConsistent.
  set (s := Page.component _). clearbody s.
  by_fields s; cbn; intros H; try reflexivity; discriminate H.
Qed.

(** In a run in which every answer of [getUserMedia] comes before anything
    else happens, the microphone is let go: every stream acquired has had
    its tracks stopped, but for the one held while recording; when the
    component is not recording, all have. *)
Theorem settled_runs_release_microphone (es : list Page.Event) (now : Q) :
  forallb settled es = true ->
  let s := Page.component (Page.run decodeAudioData es (Page.created now)) in
  noLeak s /\
  if isRecording s then True
  else Forall (fun m => m ∈ released (calls s)) (acquired (calls s)).
Proof.
  intros Hes. cbv zeta.
  destruct (settled_captureSound es now Hes) as [Hc Hl].
  split; [exact Hl|]. revert Hc Hl. unfold captureConsistent, noLeak.
  set (s := Page.component _). clearbody s.
  destruct (isRecording s); [trivial|]. intros (Hm & _ & _) Hl.
  apply Forall_forall. intros m Hin. destruct (Hl m Hin) as [H|H]; [exact H|].
  rewrite Hm in H. discriminate H.
Qed.

(** The fields of the page outside the audio path, after each event. *)
Lemma page_onmessage_frame (now : Q) (message : Page.ServerContent)
    (p : Page.Page) :
  let p' := snd (Page.onmessage decodeAudioData now message p) in
  Page.error p' = Page.error p /\
  Page.selectedLanguage p' = Page.selectedLanguage p /\
  Page.instructions p' = Page.instructions p.
Proof.
  cbv zeta. unfold Page.onmessage. rewrite lift_spec.
  destruct (outcome _ (Page.component p)) as [[]|e]; cbn [snd].
  - rewrite lift_spec. cbn [snd].
    match goal with
    | |- context [Page.set_component ?s (Page.transcribe message ?q)] =>
        destruct (set_component_spec s (Page.transcribe message q))
          as (_ & -> & -> & -> & _);
        destruct (transcribe_spec message q) as (_ & -> & -> & -> & _)
    end.
    now destruct p.
  - now destruct p.
Qed.

Lemma page_reset_frame (p : Page.Page) :
  let p' := snd (Page.reset p) in
  Page.error p' = Page.error p /\
  Page.selectedLanguage p' = Page.selectedLanguage p /\
  Page.instructions p' = Page.instructions p /\
  transcripts p' = ([], [], []) /\
  sessionPromise (Page.component p') = None.
Proof.
  destruct p as [c e l log i o ins]. by_fields c; now repeat split.
Qed.

(** Only an error of the session changes the error text: no click, reset,
    change of language, message or block clears or replaces it, and the
    status line shows it as long as it is not empty. *)
Theorem error_is_sticky (es : list Page.Event) (p : Page.Page) :
  forallb notSessionError es = true ->
  let p' := Page.run decodeAudioData es p in
  Page.error p' = Page.error p /\
  Page.statusLine p' =
    if Page.nonEmpty (list_ascii_of_string (Page.error p))
    then Page.error p
    else status (Page.component p').
Proof.
  intros Hes. cbv zeta.
  assert (H : Page.error (Page.run decodeAudioData es p) = Page.error p).
  { revert p. induction es as [|e es IH]; intros p; [reflexivity|].
    cbn in Hes. apply andb_prop in Hes as [He Hes].
    cbn [Page.run]. rewrite (IH Hes).
    destruct e as [b| | |value|now m|pcm|h| | |msg| |b];
      cbn [Page.handle_event]; try discriminate He.
    - unfold Page.startRecording. cbv zeta. rewrite lift_spec. cbn [snd].
      rewrite (proj1 (proj2 (set_component_spec _ _))).
      now destruct (_ && _), p.
    - unfold Page.stopRecording. rewrite lift_spec. cbn [snd].
      now rewrite (proj1 (proj2 (set_component_spec _ _))).
    - apply page_reset_frame.
    - unfold Page.handleLanguageChange.
      rewrite (proj1 (page_reset_frame _)). now destruct p.
    - apply page_onmessage_frame.
    - rewrite lift_spec. cbn [snd].
      now rewrite (proj1 (proj2 (set_component_spec _ _))).
    - rewrite lift_spec. cbn [snd].
      now rewrite (proj1 (proj2 (set_component_spec _ _))).
    - unfold Page.onopen. rewrite lift_spec. cbn [snd].
      now rewrite (proj1 (proj2 (set_component_spec _ _))).
    - unfold Page.onclose. rewrite lift_spec. cbn [snd].
      now rewrite (proj1 (proj2 (set_component_spec _ _))).
    - rewrite ignore_snd. unfold Page.startClicked. cbv zeta.
      rewrite lift_spec. cbn [snd].
      rewrite (proj1 (proj2 (set_component_spec _ _))).
      now destruct (_ && _), p.
    - unfold Page.microphoneAnswered. rewrite lift_spec. cbn [snd].
      now rewrite (proj1 (proj2 (set_component_spec _ _))). }
  split; [exact H|]. unfold Page.statusLine. now rewrite H.
Qed.

(** In every state the page reaches, every entry of the transcription log
    is tidy: said by the user or by the model, not empty, and without
    white space at either end. *)
Theorem reachable_log_tidy (es : list Page.Event) (now : Q) :
  Forall tidy
    (Page.transcriptionLog
       (Page.run decodeAudioData es (Page.created now))).
Proof.
  assert (H : forall p, Forall tidy (Page.transcriptionLog p) ->
                Forall tidy (Page.transcriptionLog
                               (Page.run decodeAudioData es p))).
  { induction es as [|e es IH]; intros p Hp; [exact Hp|].
    cbn [Page.run]. apply IH.
    assert (Hlift : forall A (m : M A),
              Page.transcriptionLog (snd (Page.lift m p)) =
              Page.transcriptionLog p).
    { intros A m. rewrite lift_spec. cbn [snd]. now destruct p. }
    destruct e as [b| | |value|t m|pcm|h| | |msg| |b];
      cbn [Page.handle_event];
      unfold Page.stopRecording, Page.onopen, Page.onclose,
        Page.microphoneAnswered;
      rewrite ?Hlift; try exact Hp.
    - unfold Page.startRecording. cbv zeta. rewrite lift_spec. cbn [snd].
      now destruct (_ && _), p.
    - destruct (page_reset_frame p) as (_ & _ & _ & Ht & _).
      injection Ht as -> _ _. constructor.
    - unfold Page.handleLanguageChange.
      destruct (page_reset_frame (Page.set_selectedLanguage value p))
        as (_ & _ & _ & Ht & _).
      injection Ht as -> _ _. constructor.
    - destruct (page_onmessage_spec t m p) as (_ & _ & Ht).
      destruct (outcome _ (Page.component p)).
      + destruct (transcribe_spec m p) as (_ & _ & _ & _ & Ht').
        rewrite Ht' in Ht. destruct (Page.turnComplete m);
          injection Ht as -> _ _; [|exact Hp].
        apply Forall_app. split; [exact Hp | apply turnEntries_tidy].
      + injection Ht as -> _ _. exact Hp.
    - now destruct p.
    - rewrite ignore_snd. unfold Page.startClicked. cbv zeta.
      rewrite lift_spec. cbn [snd]. now destruct (_ && _), p. }
  apply H. constructor.
Qed.

Lemma handle_event_sessionMatchesLanguage (e : Page.Event) (page : Page.Page) :
  sessionMatchesLanguage page ->
  sessionMatchesLanguage (snd (Page.handle_event decodeAudioData e page)).
Proof.
  intros Hp.
  assert (Hlift : forall (m : M unit),
            sessionPromise (exec m (Page.component page)) =
              sessionPromise (Page.component page) ->
            sessionMatchesLanguage (snd (Page.lift m page))).
  { intros m Hm. rewrite lift_spec. cbn [snd].
    unfold sessionMatchesLanguage in *.
    destruct (set_component_spec (exec m (Page.component page)) page)
      as (-> & _ & -> & -> & _).
    now rewrite Hm. }
  destruct e as [b| | |value|clock content|pcm|h| | |msg| |b];
    cbn [Page.handle_event].
  - unfold sessionMatchesLanguage in *.
    destruct page as [c e l log i o ins]. revert Hp.
    by_fields c; destruct b as [[[] message]|];
      cbn -[insert lookup]; intros Hp; try exact Hp; try exact I;
      apply lookup_insert_eq.
  - apply Hlift. by_fields (Page.component page); reflexivity.
  - unfold sessionMatchesLanguage.
    now rewrite (proj2 (proj2 (proj2 (proj2 (page_reset_frame page))))).
  - unfold sessionMatchesLanguage, Page.handleLanguageChange.
    now rewrite (proj2 (proj2 (proj2 (proj2 (page_reset_frame _))))).
  - unfold sessionMatchesLanguage in *.
    destruct (page_onmessage_spec clock content page) as (_ & -> & _).
    destruct (page_onmessage_frame clock content page) as (_ & -> & ->).
    destruct (onmessage_sparesCapture decodeAudioData clock
                (Page.signal content) (Page.component page))
      as (_ & -> & _).
    exact Hp.
  - apply Hlift. by_fields (Page.component page); reflexivity.
  - apply Hlift. now destruct (Page.component page).
  - apply Hlift. now destruct (Page.component page).
  - apply Hlift. now destruct (Page.component page).
  - now destruct page.
  - rewrite ignore_snd. unfold sessionMatchesLanguage in *.
    destruct page as [c e l log i o ins]. revert Hp.
    by_fields c; cbn -[insert lookup]; intros Hp; try exact Hp;
      try exact I; apply lookup_insert_eq.
  - apply Hlift, startRecordingResume_session.
Qed.

(** The session always matches the language: in every state the page
    reaches, the session held, if any, was connected with the instruction
    built from the language selected now. A change of language lets go of
    the session, and the next start connects a new one. *)
Theorem reachable_session_matches_language (es : list Page.Event)
    (now : Q) :
  sessionMatchesLanguage (Page.run decodeAudioData es (Page.created now)).
Proof.
  assert (H : forall p, sessionMatchesLanguage p ->
                sessionMatchesLanguage (Page.run decodeAudioData es p)).
  { induction es as [|e es IH]; intros p Hp; [exact Hp|].
    cbn [Page.run]. now apply IH, handle_event_sessionMatchesLanguage. }
  apply H. exact I.
Qed.

End Handlers.

(** A change of language, then a start: the session is connected with the
    instruction of the new language. *)
Example french_session :
  let p :=
    Page.run (fun _ => None)
      [Page.ClickStart None; Page.LanguageChange "French"; Page.ClickStart None]
      (Page.created 0) in
  sessionPromise (Page.component p) = Some 4 /\
  Page.instructions p !! 4 =
    Some ("You are a translator. Translate the user's words into French"
            ++ " and repeat them out loud.")%string /\
  closed (calls (Page.component p)) = [0].
Proof. repeat split. Qed.

Lemma settled_runs_keep_session_witness :
  let decodeAudioData (data : string) : option Q := None in
  let es :=
    [Page.ClickStart None; Page.AudioProcess [0%Q]; Page.ClickStop;
     Page.ClickStart (Some (GetUserMedia, "denied"%string));
     Page.ClickReset; Page.ClickStart None] in
  forallb settled es = true /\
  let s := Page.component (Page.run decodeAudioData es (Page.created 0)) in
  captureConsistent s /\ outcome (onaudioprocess [0%Q]) s = Returns tt.
Proof.
  intros decodeAudioData es.
  assert (H : forallb settled es = true) by reflexivity.
  split; [exact H|].
  exact (settled_runs_keep_session decodeAudioData es 0 [0%Q] H).
Defined.

Lemma settled_runs_release_microphone_witness :
  let decodeAudioData (data : string) : option Q := None in
  let es :=
    [Page.ClickStart None; Page.AudioProcess [0%Q]; Page.ClickStop;
     Page.ClickStart (Some (CreateScriptProcessor, "refused"%string));
     Page.ClickReset; Page.ClickStart None; Page.ClickStop] in
  forallb settled es = true /\
  let s := Page.component (Page.run decodeAudioData es (Page.created 0)) in
  noLeak s /\
  if isRecording s then True
  else Forall (fun m => m ∈ released (calls s)) (acquired (calls s)).
Proof.
  intros decodeAudioData es.
  assert (H : forallb settled es = true) by reflexivity.
  split; [exact H|].
  exact (settled_runs_release_microphone decodeAudioData es 0 H).
Defined.

(** A reset while [getUserMedia] is pending: the answer starts the capture
    on a component that holds no session, and the first block throws. *)
Example reset_before_answer :
  let s :=
    Page.component
      (Page.run (fun _ => None)
         [Page.StartClicked; Page.ClickReset; Page.MicrophoneAnswered None]
         (Page.created 0)) in
  isRecording s = true /\ sessionPromise s = None /\
  outcome (onaudioprocess [0%Q]) s = Throws "TypeError".
Proof. repeat split. Qed.

(** A second start while [getUserMedia] is pending: the stream of the
    second answer takes the place of the first, whose tracks are never
    stopped. *)
Example start_before_answer :
  let s :=
    Page.component
      (Page.run (fun _ => None)
         [Page.StartClicked; Page.StartClicked; Page.MicrophoneAnswered None;
          Page.MicrophoneAnswered None; Page.ClickStop]
         (Page.created 0)) in
  isRecording s = false /\
  acquired (calls s) = [1; 4] /\ released (calls s) = [4].
Proof. repeat split. Qed.

Lemma run_logs_turn_witness :
  let decodeAudioData (data : string) : option Q := None in
  let silent := {| audio := None; interrupted := false |} in
  let garbled := {| audio := Some "AA=="%string; interrupted := false |} in
  let heard signal t :=
    {| Page.signal := signal; Page.inputTranscription := Some (Some t);
       Page.outputTranscription := None; Page.turnComplete := false |} in
  let ms := [(0%Q, heard garbled (Page.ofAscii " he"));
             (1%Q, heard silent (Page.ofAscii "llo "))] in
  let final :=
    {| Page.signal := silent; Page.inputTranscription := None;
       Page.outputTranscription := Some None; Page.turnComplete := true |} in
  let p := Page.created 0 in
  (Forall (fun a => Page.turnComplete (snd a) = false)
     (taken decodeAudioData ms) /\
   Page.turnComplete final = true /\
   audioReturns decodeAudioData final = true) /\
  let turn := map snd (taken decodeAudioData ms) ++ [final] in
  let input :=
    Page.currentInputText p
      ++ concat (map (fun m => fragment (Page.inputTranscription m)) turn) in
  let output :=
    Page.currentOutputText p
      ++ concat (map (fun m => fragment (Page.outputTranscription m)) turn) in
  transcripts
    (Page.run decodeAudioData (messageEvents (ms ++ [(2%Q, final)])) p) =
    (Page.transcriptionLog p ++ turnEntries input output, [], []) /\
  fragment (Some None) = Page.ofAscii "undefined".
Proof.
  intros decodeAudioData silent garbled heard ms final p.
  assert (H1 : Forall (fun a => Page.turnComplete (snd a) = false)
                 (taken decodeAudioData ms))
    by (repeat constructor).
  assert (H2 : Page.turnComplete final = true) by reflexivity.
  assert (H3 : audioReturns decodeAudioData final = true) by reflexivity.
  split; [now repeat split|].
  exact (run_logs_turn decodeAudioData ms 2 final p H1 H2 H3).
Defined.

(** The turn of the witness on the page: the fragment that came with audio
    that does not decode is lost, the rest is trimmed and logged. *)
Example garbled_turn :
  let silent := {| audio := None; interrupted := false |} in
  let garbled := {| audio := Some "AA=="%string; interrupted := false |} in
  let heard signal t :=
    {| Page.signal := signal; Page.inputTranscription := Some (Some t);
       Page.outputTranscription := None; Page.turnComplete := false |} in
  let final :=
    {| Page.signal := silent; Page.inputTranscription := None;
       Page.outputTranscription := Some None; Page.turnComplete := true |} in
  Page.transcriptionLog
    (Page.run (fun _ => None)
       [Page.Message 0 (heard garbled (Page.ofAscii " he"));
        Page.Message 1 (heard silent (Page.ofAscii "llo "));
        Page.Message 2 final]
       (Page.created 0)) =
  [{| Page.speaker := "You"; Page.text := Page.ofAscii "llo" |};
   {| Page.speaker := "Orb"; Page.text := Page.ofAscii "undefined" |}].
Proof. reflexivity. Qed.

(** A turn whose messages carry no audio, in full: the words of the user
    are joined and trimmed, and the transcription of the model that has no
    text is logged as "undefined". *)
Example hello_turn :
  let silent := {| audio := None; interrupted := false |} in
  let heard t :=
    {| Page.signal := silent; Page.inputTranscription := Some (Some t);
       Page.outputTranscription := None; Page.turnComplete := false |} in
  let final :=
    {| Page.signal := silent; Page.inputTranscription := None;
       Page.outputTranscription := Some None; Page.turnComplete := true |} in
  Page.transcriptionLog
    (Page.run (fun _ => None)
       [Page.Message 0 (heard (Page.ofAscii " he"));
        Page.Message 1 (heard (Page.ofAscii "llo "));
        Page.Message 2 final]
       (Page.created 0)) =
  [{| Page.speaker := "You"; Page.text := Page.ofAscii "hello" |};
   {| Page.speaker := "Orb"; Page.text := Page.ofAscii "undefined" |}].
Proof. reflexivity. Qed.

Lemma error_is_sticky_witness :
  let es :=
    [Page.ClickReset; Page.ClickStart None; Page.SessionOpen;
     Page.ClickStop; Page.LanguageChange "French"] in
  let p := snd (Page.onerror "Network error" (Page.created 0)) in
  forallb notSessionError es = true /\
  let p' := Page.run (fun _ => None) es p in
  Page.error p' = Page.error p /\
  Page.statusLine p' =
    if Page.nonEmpty (list_ascii_of_string (Page.error p))
    then Page.error p
    else status (Page.component p').
Proof.
  intros es p.
  assert (H : forallb notSessionError es = true) by reflexivity.
  split; [exact H|].
  exact (error_is_sticky (fun _ => None) es p H).
Defined.

End PageFacts.

(* ===================================================================== *)
(** ** The audio buffer of the tests *)
(* ===================================================================== *)

Module MockAudioFacts.

Import MockAudio.

(** The loop from [i], with both arrays long enough: the elements from [i]
    on are copied, the others stay. *)
Lemma copyLoop_spec (fuel i : nat) (from to : list Q) :
  i + fuel <= Datatypes.length from -> i + fuel <= Datatypes.length to ->
  copyLoop fuel i from to =
  take i to ++ take fuel (drop i from) ++ drop (i + fuel) to.
Proof.
  revert i to. induction fuel as [|fuel IH]; intros i to Hfrom Hto.
  - cbn [copyLoop take]. rewrite Nat.add_0_r. cbn [app].
    symmetry. apply take_drop.
  - cbn [copyLoop].
    destruct (from !! i) as [x|] eqn:Hx.
    2:{ apply lookup_ge_None in Hx. lia. }
    rewrite IH by (rewrite ?length_insert; lia).
    rewrite (take_S_r (<[i:=x]> to) i x)
      by (apply list_lookup_insert_eq; lia).
    rewrite take_insert_ge by lia.
    rewrite drop_insert_lt by lia.
    rewrite (drop_S from x i Hx). cbn [take].
    rewrite <- app_assoc. cbn. now rewrite Nat.add_succ_r.
Qed.

Lemma copy_spec (from to : list Q) :
  let k := Nat.min (Datatypes.length from) (Datatypes.length to) in
  copy from to = take k from ++ drop k to.
Proof.
  cbv zeta. unfold copy. rewrite copyLoop_spec by lia. cbn.
  now rewrite drop_0.
Qed.

(** [copyToChannel] stays within bounds: it overwrites the first
    [min(source.length, channel.length)] samples of the channel with those
    of the source and nothing else; the channel keeps its length and the
    other channels their content. On a channel the buffer has not, it
    throws. *)
Theorem copyToChannel_within_bounds (source : list Q) (c : nat)
    (b : AudioBuffer) :
  match channels b !! c with
  | None => copyToChannel source c b = None
  | Some channel =>
      exists b',
        copyToChannel source c b = Some b' /\
        let k := Nat.min (Datatypes.length source) (Datatypes.length channel) in
        getChannelData c b' = Some (take k source ++ drop k channel) /\
        (forall d, d <> c -> getChannelData d b' = getChannelData d b) /\
        (forall written, getChannelData c b' = Some written ->
           Datatypes.length written = Datatypes.length channel)
  end.
Proof.
  unfold copyToChannel. destruct (channels b !! c) as [channel|] eqn:Hc;
    [|reflexivity].
  eexists. split; [reflexivity|]. cbv zeta. unfold getChannelData. cbn.
  assert (Hlt : c < Datatypes.length (channels b))
    by (eapply lookup_lt_Some; eauto).
  rewrite list_lookup_insert_eq by exact Hlt. rewrite copy_spec.
  split; [reflexivity|]. split.
  - intros d Hd. now apply list_lookup_insert_ne.
  - intros written [= <-]. rewrite length_app, length_take, length_drop. lia.
Qed.

(** What [copyToChannel] writes, [copyFromChannel] reads back: in a buffer
    made by [createBuffer], a source as long as the buffer written to one
    of its channels is read back whole, and the other channels are still
    silent. *)
Theorem copy_round_trip (numChannels frames : nat) (rate : positive)
    (source destination : list Q) (c : nat) :
  c < numChannels ->
  Datatypes.length source = frames ->
  Datatypes.length destination = frames ->
  exists b,
    copyToChannel source c (createBuffer numChannels frames rate) = Some b /\
    copyFromChannel destination c b = Some source /\
    getChannelData c b = Some source /\
    forall d, d < numChannels -> d <> c ->
      getChannelData d b = Some (replicate frames 0%Q).
Proof.
  intros Hc Hs Hd.
  unfold copyToChannel, copyFromChannel, getChannelData, createBuffer.
  cbn [channels numberOfChannels length sampleRate].
  rewrite lookup_replicate_2 by exact Hc.
  eexists. split; [reflexivity|]. cbn [channels].
  rewrite list_lookup_insert_eq by (rewrite length_replicate; exact Hc).
  assert (E : copy source (replicate frames 0%Q) = source).
  { rewrite copy_spec, length_replicate, Hs, Nat.min_id.
    rewrite drop_ge by (rewrite length_replicate; lia).
    rewrite take_ge by lia. apply app_nil_r. }
  rewrite E. split; [|split; [reflexivity|]].
  - rewrite copy_spec, Hs, Hd, Nat.min_id.
    rewrite drop_ge by lia. rewrite take_ge by lia. now rewrite app_nil_r.
  - intros d Hd' Hne. rewrite list_lookup_insert_ne by congruence.
    now apply lookup_replicate_2.
Qed.

Lemma copy_round_trip_witness :
  let source := [(1 # 2)%Q; (-1 # 4)%Q; 0%Q] in
  let destination := replicate 3 0%Q in
  (1 < 2 /\ Datatypes.length source = 3 /\
   Datatypes.length destination = 3) /\
  exists b,
    copyToChannel source 1 (createBuffer 2 3 16000) = Some b /\
    copyFromChannel destination 1 b = Some source /\
    getChannelData 1 b = Some source /\
    forall d, d < 2 -> d <> 1 ->
      getChannelData d b = Some (replicate 3 0%Q).
Proof.
  intros source destination.
  assert (H1 : 1 < 2) by lia.
  assert (H2 : Datatypes.length source = 3) by reflexivity.
  assert (H3 : Datatypes.length destination = 3) by reflexivity.
  split; [now repeat split|].
  exact (copy_round_trip 2 3 16000 source destination 1 H1 H2 H3).
Defined.

End MockAudioFacts.
